(** * text_sequence_script: three-word sequence counting

    A shallow embedding of [index.js] and of the worker script
    [process_analyze_files.js], and the properties of the normalizer, the
    trigram counter, the ranker, the work partitioner and the coordinator. *)

From Stdlib Require Import ZArith List Bool Lia Permutation QArith Qround Lqa.
From Stdlib Require Ascii String.
Import ListNotations.
Import String.StringSyntax.
Delimit Scope string_scope with string.

Open Scope Z_scope.

(** ** JavaScript strings and arrays *)

(** A string is the sequence of its code points; the regular expressions of
    [formatText] that carry the [u] flag work on code points, and the others
    only look at white space and the apostrophe, which are single code
    units. *)
Definition jsstring := list Z.

(** ASCII literals. *)
Definition js (s : String.string) : jsstring :=
  map (fun a => Z.of_N (Ascii.N_of_ascii a)) (String.list_ascii_of_string s).
Arguments js s%_string.

Definition SPACE : Z := 32.
Definition NEWLINE : Z := 10.
Definition APOSTROPHE : Z := 39.
Definition HYPHEN : Z := 45.

Fixpoint str_eqb (a b : jsstring) : bool :=
  match a, b with
  | [], [] => true
  | x :: a', y :: b' => (x =? y) && str_eqb a' b'
  | _, _ => false
  end.

Definition len {A} (l : list A) : Z := Z.of_nat (length l).

(** [Array.prototype.slice(start, end)] and [String.prototype.slice] for
    integer arguments: negative indices count from the end, both ends are
    clamped to the length. *)
Definition relativeIndex (length idx : Z) : Z :=
  if idx <? 0 then Z.max (length + idx) 0 else Z.min idx length.

Definition slice {A} (l : list A) (start stop : Z) : list A :=
  let k := relativeIndex (len l) start in
  let final := relativeIndex (len l) stop in
  firstn (Z.to_nat (Z.max (final - k) 0)) (skipn (Z.to_nat k) l).

(** [text.split(" ")]: the pieces between the occurrences of the separator;
    the empty string gives one empty piece. *)
Fixpoint String_split (sep : Z) (s : jsstring) : list jsstring :=
  match s with
  | [] => [[]]
  | c :: r =>
      if c =? sep then [] :: String_split sep r
      else match String_split sep r with
           | w :: ws => (c :: w) :: ws
           | [] => [[c]]
           end
  end.

(** [array.join(sep)]. *)
Fixpoint Array_join (sep : jsstring) (l : list jsstring) : jsstring :=
  match l with
  | [] => []
  | [w] => w
  | w :: ws => w ++ sep ++ Array_join sep ws
  end.

(** ** The frequency table: a JavaScript [Map]

    A [Map] iterates in insertion order, and [getTopSequences] reads it in
    that order, so the table is an association list: [set] on a key that is
    present keeps its place. Counts are integers far below 2^53. *)
Definition JSMap := list (jsstring * Z).

Fixpoint Map_get (m : JSMap) (key : jsstring) : option Z :=
  match m with
  | [] => None
  | (k, v) :: m' => if str_eqb k key then Some v else Map_get m' key
  end.

Definition Map_has (m : JSMap) (key : jsstring) : bool :=
  match Map_get m key with Some _ => true | None => false end.

Fixpoint Map_set (m : JSMap) (key : jsstring) (value : Z) : JSMap :=
  match m with
  | [] => [(key, value)]
  | (k, v) :: m' =>
      if str_eqb k key then (k, value) :: m' else (k, v) :: Map_set m' key value
  end.

Definition Map_keys (m : JSMap) : list jsstring := map fst m.
Definition Map_size (m : JSMap) : Z := len m.

(** The well-formedness of a [Map]: no key twice. *)
Definition Map_wf (m : JSMap) : Prop := NoDup (Map_keys m).

(** The total of the counts of a table. *)
Definition totalCount (m : JSMap) : Z := fold_right (fun e acc => snd e + acc) 0 m.

(** ** generateSequenceMap *)

(** The body of the [for] loop, [steps] iterations from [leftIndex] on; the
    [break] ends the loop with the table as it is. *)
Fixpoint generateSequenceLoop (textArray : list jsstring) (steps : nat)
    (leftIndex : Z) (sequenceMap : JSMap) : JSMap :=
  match steps with
  | O => sequenceMap
  | S steps' =>
      let sequenceArray := slice textArray leftIndex (leftIndex + 3) in
      if len sequenceArray <? 3 then sequenceMap
      else
        let sequenceText := Array_join (js " ") sequenceArray in
        generateSequenceLoop textArray steps' (leftIndex + 1)
          (match Map_get sequenceMap sequenceText with
           | Some count => Map_set sequenceMap sequenceText (count + 1)
           | None => Map_set sequenceMap sequenceText 1
           end)
  end.

Definition generateSequenceMap (text : jsstring) : JSMap :=
  let textArray := String_split SPACE text in
  generateSequenceLoop textArray (length textArray) 0 [].

(** The tokens of a text: its non-empty pieces between single spaces. *)
Definition isEmpty (s : jsstring) : bool :=
  match s with [] => true | _ => false end.

Definition tokens (text : jsstring) : list jsstring :=
  filter (fun w => negb (isEmpty w)) (String_split SPACE text).

Definition tokenCount (text : jsstring) : Z := len (tokens text).

(** ** Characters

    [\s] of a regular expression and the characters [trim] removes are the
    same set: WhiteSpace and LineTerminator of ECMAScript. *)
Definition isWhiteSpace (c : Z) : bool :=
  ((9 <=? c) && (c <=? 13)) || (c =? 32) || (c =? 160) || (c =? 5760)
  || ((8192 <=? c) && (c <=? 8202)) || (c =? 8232) || (c =? 8233)
  || (c =? 8239) || (c =? 8287) || (c =? 12288) || (c =? 65279).

Definition isAscii (c : Z) : bool := (0 <=? c) && (c <? 128).

Definition isAsciiLetter (c : Z) : bool :=
  ((65 <=? c) && (c <=? 90)) || ((97 <=? c) && (c <=? 122)).

Definition asciiLower (c : Z) : Z :=
  if (65 <=? c) && (c <=? 90) then c + 32 else c.

(** The Unicode character database is data of the JavaScript engine, not of
    this program. The ASCII block is written out above; beyond it the general
    categories Letter and Mark and the lowercase mapping are an interface.
    [lowerTable before c after] is what [toLowerCase] puts for [c] when the
    code points before it (nearest first) and after it are as given: the
    mapping can depend on the context and can give several code points. *)
Class Unicode := {
  letterTable : Z -> bool;
  markTable : Z -> bool;
  lowerTable : jsstring -> Z -> jsstring -> jsstring
}.

(** The database with nothing beyond ASCII: no letters, no marks, nothing to
    put in lower case. It agrees with every database on ASCII text. *)
Definition asciiOnly : Unicode :=
  {| letterTable := fun _ => false;
     markTable := fun _ => false;
     lowerTable := fun _ c _ => [c] |}.

(** ** Global replacement

    [text.replace(/re/g, repl)] scans from the left: where the expression
    matches, the replacement is put and the scan goes on after the match;
    elsewhere the character is kept and the scan moves one on. The four
    expressions of [formatText] never match the empty string, so a matcher
    tells, for a match that starts at [c], how many characters of the rest it
    takes in. *)
Definition Matcher := Z -> jsstring -> option nat.

Fixpoint replaceScan (m : Matcher) (repl : jsstring) (s : jsstring)
    (skip : nat) : jsstring :=
  match s with
  | [] => []
  | c :: rest =>
      match skip with
      | S k => replaceScan m repl rest k
      | O =>
          match m c rest with
          | Some k => repl ++ replaceScan m repl rest k
          | None => c :: replaceScan m repl rest O
          end
      end
  end.

Definition replaceAll (m : Matcher) (repl : jsstring) (s : jsstring) : jsstring :=
  replaceScan m repl s O.

(** A character class: one character. *)
Definition matchClass (p : Z -> bool) : Matcher :=
  fun c _ => if p c then Some O else None.

(** The length of the run of white space a text starts with. *)
Fixpoint spaceRun (s : jsstring) : nat :=
  match s with
  | c :: r => if isWhiteSpace c then S (spaceRun r) else O
  | [] => O
  end.

(** [\s+] is greedy: the whole run. *)
Definition matchSpaces : Matcher :=
  fun c rest => if isWhiteSpace c then Some (spaceRun rest) else None.

(** [\s+'\s+]: a run of white space, an apostrophe, a run of white space. The
    apostrophe is no white space, so the first run has to be the whole run:
    giving characters back cannot help. *)
Definition matchLoneApostrophe : Matcher :=
  fun c rest =>
    if isWhiteSpace c then
      let k := spaceRun rest in
      match skipn k rest with
      | a :: b :: rest' =>
          if (a =? APOSTROPHE) && isWhiteSpace b
          then Some (k + 2 + spaceRun rest')%nat
          else None
      | _ => None
      end
    else None.

(** [trim]. *)
Fixpoint trimStart (s : jsstring) : jsstring :=
  match s with
  | c :: r => if isWhiteSpace c then trimStart r else s
  | [] => []
  end.

Fixpoint trimEnd (s : jsstring) : jsstring :=
  match s with
  | c :: r =>
      match trimEnd r with
      | [] => if isWhiteSpace c then [] else [c]
      | r' => c :: r'
      end
  | [] => []
  end.

Definition trim (s : jsstring) : jsstring := trimEnd (trimStart s).

(** ** formatText *)

Section Normalizer.
Context {U : Unicode}.

Definition isLetter (c : Z) : bool :=
  if isAscii c then isAsciiLetter c else letterTable c.

Definition isMark (c : Z) : bool :=
  if isAscii c then false else markTable c.

Fixpoint toLowerCaseFrom (before s : jsstring) : jsstring :=
  match s with
  | [] => []
  | c :: r =>
      (if isAscii c then [asciiLower c] else lowerTable before c r)
      ++ toLowerCaseFrom (c :: before) r
  end.

Definition toLowerCase (s : jsstring) : jsstring := toLowerCaseFrom [] s.

(** The class [[\p{Letter}\p{Mark}\s ' -]], which the third step negates. *)
Definition isKept (c : Z) : bool :=
  isLetter c || isMark c || isWhiteSpace c
  || (c =? SPACE) || (c =? APOSTROPHE) || (c =? HYPHEN).

Definition formatText (text : jsstring) : jsstring :=
  let t1 := toLowerCase text in
  let t2 := replaceAll (matchClass (fun c => c =? NEWLINE)) (js " ") t1 in
  let t3 := replaceAll (matchClass (fun c => negb (isKept c))) (js " ") t2 in
  let t4 := replaceAll matchLoneApostrophe (js " ") t3 in
  let t5 := replaceAll matchSpaces (js " ") t4 in
  trim t5.

(** *** Normalized Text

    The invariant of the data model, part by part. White space is single
    spaces between tokens and nothing else; a token is made of letters,
    marks, apostrophes and hyphens, in lower case. *)

Definition startsWithSpace (s : jsstring) : bool :=
  match s with
  | c :: _ => isWhiteSpace c
  | [] => false
  end.

Fixpoint endsWithSpace (s : jsstring) : bool :=
  match s with
  | [] => false
  | [c] => isWhiteSpace c
  | _ :: r => endsWithSpace r
  end.

(** No leading and no trailing white space. *)
Definition isTrimmed (s : jsstring) : bool :=
  negb (startsWithSpace s) && negb (endsWithSpace s).

(** No newline; more than that, no white space but the space itself. *)
Definition noNewlines (s : jsstring) : bool :=
  forallb (fun c => negb (c =? NEWLINE)) s.

Definition onlyPlainSpaces (s : jsstring) : bool :=
  forallb (fun c => negb (isWhiteSpace c) || (c =? SPACE)) s.

(** A run of two or more white space characters. *)
Fixpoint hasSpaceRun (s : jsstring) : bool :=
  match s with
  | a :: r =>
      (isWhiteSpace a && startsWithSpace r) || hasSpaceRun r
  | [] => false
  end.

(** An apostrophe that stands alone between white space. *)
Fixpoint hasLoneApostrophe (s : jsstring) : bool :=
  match s with
  | a :: r =>
      match r with
      | b :: c :: _ =>
          (isWhiteSpace a && (b =? APOSTROPHE) && isWhiteSpace c)
          || hasLoneApostrophe r
      | _ => false
      end
  | [] => false
  end.

(** The four parts the normalizer is asked for whatever the alphabet. *)
Definition wellSpaced (s : jsstring) : bool :=
  noNewlines s && isTrimmed s && negb (hasSpaceRun s)
  && negb (hasLoneApostrophe s).

Definition NormalizedText (s : jsstring) : bool :=
  wellSpaced s && onlyPlainSpaces s && forallb isKept s
  && str_eqb (toLowerCase s) s.

End Normalizer.

(** ** getTopSequences and analyzeText *)

(** [array.sort(comparefn)] is stable, and with a comparison that is a total
    preorder its result is fixed by that: each element goes before the first
    one it does not have to follow. *)
Fixpoint sortInsert {A} (comparefn : A -> A -> Z) (x : A) (l : list A) : list A :=
  match l with
  | [] => [x]
  | y :: r => if comparefn x y <=? 0 then x :: l else y :: sortInsert comparefn x r
  end.

Definition Array_sort {A} (comparefn : A -> A -> Z) (l : list A) : list A :=
  fold_right (sortInsert comparefn) [] l.

Definition getTopSequences (sequenceMap : JSMap) : list (jsstring * Z) :=
  Array_sort (fun a b => snd b - snd a)
    (map (fun '(key, value) => (key, value)) sequenceMap).

Definition analyzeText (text : jsstring) : list (jsstring * Z) :=
  let sequenceMap := generateSequenceMap text in
  getTopSequences sequenceMap.

(** The order [getTopSequences] asks for: the higher count first. *)
Definition byCount (a b : jsstring * Z) : Z := snd b - snd a.

Inductive descending : list (jsstring * Z) -> Prop :=
| descending_nil : descending []
| descending_one a : descending [a]
| descending_cons a b l :
    snd b <= snd a -> descending (b :: l) -> descending (a :: b :: l).

(** ** splitArrayToNChunks *)

(** [Math.ceil(a / b)] for integers [a] and [b > 0]. *)
Definition Math_ceil_div (a b : Z) : Z := - ((- a) / b).

(** [array[i] = v] for an index up to the length: the element is replaced,
    or added when [i] is the length. *)
Definition Array_put {A} (l : list A) (i : Z) (v : A) : list A :=
  firstn (Z.to_nat i) l ++ v :: skipn (S (Z.to_nat i)) l.

(** The [for] loop: [steps] iterations from [i] on. The worker count reaches
    the function as an integer. *)
Fixpoint splitLoop {A} (array : list A) (n : Z) (steps : nat) (i arrPos : Z)
    (splitArray : list (list A)) : list (list A) :=
  match steps with
  | O => splitArray
  | S steps' =>
      let splitArrayLength := Math_ceil_div (len array - arrPos) (n - i) in
      let splitArray1 := splitArray ++ [[]] in
      let splitArray2 :=
        Array_put splitArray1 i (slice array arrPos (splitArrayLength + arrPos)) in
      splitLoop array n steps' (i + 1) (arrPos + splitArrayLength) splitArray2
  end.

Definition splitArrayToNChunks {A} (array : list A) (n : Z) : list (list A) :=
  splitLoop array n (Z.to_nat n) 0 0 [].

(** The chunks in terms of what is left of the array and of the slots. *)
Fixpoint chunksOf {A} (rest : list A) (slots : nat) : list (list A) :=
  match slots with
  | O => []
  | S slots' =>
      let size := Z.to_nat (Math_ceil_div (len rest) (Z.of_nat slots)) in
      firstn size rest :: chunksOf (skipn size rest) slots'
  end.

(** ** The worker and the coordinator *)

(** What a result is tagged with: a path (or [stdin]), or the whole list of
    the paths given. *)
Inductive FileTag :=
| OneFile (path : jsstring)
| FileList (paths : list jsstring).

Record FileResult := { file : FileTag; sequences : list (jsstring * Z) }.

(** The value of the [threads] option once parsed as a number: [NaN] or a
    finite number. Every finite double is a rational, and what the program
    does with the value ([>], [!!], [Math.round], [Math.min]) is exact on it.
    The infinities are left out. *)
Inductive JSNumber :=
| NaN
| Finite (q : Q).

(** An entry of the [files] option as the parser of the command line hands
    it over: the option is an array without a type for its entries, and an
    argument that reads as a number comes as a number, not as a string. *)
Inductive FileArg :=
| FilePath (path : jsstring)
| FileNumber (value : Q).

(** A repeated [--threads], which comes as an array, is outside the declared
    type of the option and is left out, like the infinities. *)
Record Argv := {
  argv_files : option (list FileArg);
  argv_threads : option JSNumber;
  argv_positional : list jsstring
}.

(** What the program prints with [console.log]. *)
Inductive Line :=
| MaxThreadsWarning (max : Z) (requested : JSNumber)
| InvalidThreadsArgument
| InvalidInput (files : list jsstring)
| TopSequencesHeader (tag : FileTag)
| SequenceLine (rank : Z) (sequence : jsstring) (frequency : Z)
| NoSequencesFound.

(** [TypeError]: [file.endsWith] called on a number, which has no such
    method. *)
Inductive Failure :=
| UsageError
| ReadError (path : jsstring)
| TypeError (value : Q).

(** How [main] ends: it returns; or it throws, which the last lines of the
    file answer with [console.error] and [process.exit(1)]; or a worker has
    left without posting its message, and [main] is still at its [await]:
    it neither returns nor throws, the handler at the end of [index.js] does
    not run, and nothing more is printed. *)
Inductive Outcome :=
| Done (log : list Line)
| Failed (err : Failure) (log : list Line)
| WorkerExited (log : list Line).

Inductive Mode :=
| MultiFileAsN (threadCount : Z)
| SingleFileAsOne
| Stream.

Definition String_endsWith (s suffix : jsstring) : bool :=
  (length suffix <=? length s)%nat
  && str_eqb (skipn (length s - length suffix) s) suffix.

Definition truthyNumber (x : option JSNumber) : bool :=
  match x with
  | Some (Finite q) => negb (Qeq_bool q 0)
  | _ => false
  end.

Definition Number_isNaN (x : option JSNumber) : bool :=
  match x with Some NaN => true | _ => false end.

Definition greaterThan (x : option JSNumber) (y : Z) : bool :=
  match x with
  | Some (Finite q) => negb (Qle_bool q (inject_Z y))
  | _ => false
  end.

(** [Math.round]: the nearest integer, the upper one of two. *)
Definition Math_round (q : Q) : Z := Qfloor (q + (1 # 2)).

Definition logSequences (topSequences : list FileResult) : list Line :=
  flat_map
    (fun ts =>
       if negb (len (sequences ts) =? 0) then
         TopSequencesHeader (file ts)
         :: map (fun '(index, (sequence, frequency)) =>
                   SequenceLine (Z.of_nat index + 1) sequence frequency)
              (combine (seq 0 100) (slice (sequences ts) 0 100))
       else [NoSequencesFound])
    topSequences.

Section Coordinator.
Context {U : Unicode}.

(** The host: the number of processors, the files that can be read with
    their contents, and the lines of the standard input. *)
Variable MAX_THREADS : Z.
Variable readFile : jsstring -> option jsstring.
Variable stdin : list jsstring.

(** [process_analyze_files.js]: the loop of [processAndAnalyzeFiles]. *)
Fixpoint processAndAnalyzeLoop (files invalidFiles : list jsstring)
    (sequences : list FileResult)
    : Failure + (list jsstring * list FileResult) :=
  match files with
  | [] => inr (invalidFiles, sequences)
  | file :: files' =>
      if negb (String_endsWith file (js ".txt")) then
        processAndAnalyzeLoop files' (invalidFiles ++ [file]) sequences
      else
        match readFile file with
        | None => inl (ReadError file)
        | Some data =>
            let formattedText := formatText data in
            processAndAnalyzeLoop files' invalidFiles
              (sequences
               ++ [{| file := OneFile file; sequences := analyzeText formattedText |}])
        end
  end.

Definition processAndAnalyzeFiles (workerData_files : list jsstring)
    : Failure + (list jsstring * list FileResult) :=
  processAndAnalyzeLoop workerData_files [] [].

(** [createWorker]: the promise is resolved with the message of the worker.
    When a read fails the worker catches the error, prints it and calls
    [process.exit(1)]: it posts no message ([None]). *)
Definition createWorker (fileChunk : list jsstring)
    : option (list jsstring * list FileResult) :=
  match processAndAnalyzeFiles fileChunk with
  | inr data => Some data
  | inl _ => None
  end.

(** [Promise.all]: every message, in the order of the promises, once all
    are there; nothing as long as one is missing. *)
Fixpoint Promise_all {A} (promises : list (option A)) : option (list A) :=
  match promises with
  | [] => Some []
  | None :: _ => None
  | Some x :: rest =>
      match Promise_all rest with
      | Some xs => Some (x :: xs)
      | None => None
      end
  end.

Definition invalidInputLine (invalidFiles : list jsstring) : list Line :=
  if negb (len invalidFiles =? 0) then [InvalidInput invalidFiles] else [].

Definition processFilesInParallel (files : list jsstring) (threadCount : Z)
    : option (list Line * list FileResult) :=
  let fileChunks := splitArrayToNChunks files threadCount in
  let topSequencesPromises := map createWorker fileChunks in
  match Promise_all topSequencesPromises with
  | None => None
  | Some fileOutput =>
      let invalidFiles := flat_map fst fileOutput in
      let topSequences := flat_map snd fileOutput in
      Some (invalidInputLine invalidFiles, topSequences)
  end.

(** The loop of [processFilesAsOne]. *)
Fixpoint readFilesLoop (files : list jsstring) (text : jsstring)
    (invalidFiles : list jsstring) : Failure + (jsstring * list jsstring) :=
  match files with
  | [] => inr (text, invalidFiles)
  | file :: files' =>
      if negb (String_endsWith file (js ".txt")) then
        readFilesLoop files' text (invalidFiles ++ [file])
      else
        match readFile file with
        | None => inl (ReadError file)
        | Some data => readFilesLoop files' (text ++ js " " ++ formatText data) invalidFiles
        end
  end.

(** The text [processFilesAsOne] hands to [analyzeText]. *)
Definition textOfFiles (files : list jsstring) : Failure + jsstring :=
  match readFilesLoop files [] [] with
  | inl e => inl e
  | inr (text, _) => inr (trim text)
  end.

Definition processFilesAsOne (files : list jsstring)
    : Failure + (list Line * list FileResult) :=
  match readFilesLoop files [] [] with
  | inl e => inl e
  | inr (text, invalidFiles) =>
      let analyzedText := analyzeText (trim text) in
      inr (invalidInputLine invalidFiles,
           [{| file := FileList files; sequences := analyzedText |}])
  end.

(** [processStdIn] on the lines that [readline] gives. *)
Definition processStdIn : jsstring :=
  trim (fold_left (fun text line => text ++ js " " ++ formatText line) stdin []).

(** *** The same functions on the array of [argv.files]

    The loops above are the functions on an array of paths, the type their
    documentation gives. [main] passes the array of the command line, in
    which an entry can be a number: there [file.endsWith] throws. *)

Fixpoint processAndAnalyzeLoopArgs (files : list FileArg)
    (invalidFiles : list jsstring) (sequences : list FileResult)
    : Failure + (list jsstring * list FileResult) :=
  match files with
  | [] => inr (invalidFiles, sequences)
  | FileNumber value :: _ => inl (TypeError value)
  | FilePath file :: files' =>
      if negb (String_endsWith file (js ".txt")) then
        processAndAnalyzeLoopArgs files' (invalidFiles ++ [file]) sequences
      else
        match readFile file with
        | None => inl (ReadError file)
        | Some data =>
            let formattedText := formatText data in
            processAndAnalyzeLoopArgs files' invalidFiles
              (sequences
               ++ [{| file := OneFile file; sequences := analyzeText formattedText |}])
        end
  end.

Definition processAndAnalyzeFilesArgs (workerData_files : list FileArg)
    : Failure + (list jsstring * list FileResult) :=
  processAndAnalyzeLoopArgs workerData_files [] [].

(** The worker catches what its function throws, a [TypeError] like a
    failed read, prints it and leaves with [process.exit(1)]. *)
Definition createWorkerArgs (fileChunk : list FileArg)
    : option (list jsstring * list FileResult) :=
  match processAndAnalyzeFilesArgs fileChunk with
  | inr data => Some data
  | inl _ => None
  end.

Definition processFilesInParallelArgs (files : list FileArg) (threadCount : Z)
    : option (list Line * list FileResult) :=
  let fileChunks := splitArrayToNChunks files threadCount in
  let topSequencesPromises := map createWorkerArgs fileChunks in
  match Promise_all topSequencesPromises with
  | None => None
  | Some fileOutput =>
      let invalidFiles := flat_map fst fileOutput in
      let topSequences := flat_map snd fileOutput in
      Some (invalidInputLine invalidFiles, topSequences)
  end.

Fixpoint readFilesLoopArgs (files : list FileArg) (text : jsstring)
    (invalidFiles : list jsstring) : Failure + (jsstring * list jsstring) :=
  match files with
  | [] => inr (text, invalidFiles)
  | FileNumber value :: _ => inl (TypeError value)
  | FilePath file :: files' =>
      if negb (String_endsWith file (js ".txt")) then
        readFilesLoopArgs files' text (invalidFiles ++ [file])
      else
        match readFile file with
        | None => inl (ReadError file)
        | Some data =>
            readFilesLoopArgs files' (text ++ js " " ++ formatText data) invalidFiles
        end
  end.

(** The strings among the entries: all of them once a loop has gone through
    the array without throwing. *)
Definition pathsOf (files : list FileArg) : list jsstring :=
  flat_map (fun entry => match entry with
                         | FilePath path => [path]
                         | FileNumber _ => []
                         end) files.

Definition processFilesAsOneArgs (files : list FileArg)
    : Failure + (list Line * list FileResult) :=
  match readFilesLoopArgs files [] [] with
  | inl e => inl e
  | inr (text, invalidFiles) =>
      let analyzedText := analyzeText (trim text) in
      inr (invalidInputLine invalidFiles,
           [{| file := FileList (pathsOf files); sequences := analyzedText |}])
  end.

Definition THREAD_COUNT (argv : Argv) : Z :=
  match argv_threads argv with
  | Some (Finite q) =>
      if negb (Qeq_bool q 0) then Z.min (Math_round q) MAX_THREADS else 1
  | _ => 1
  end.

Definition hasFiles (argv : Argv) : bool :=
  match argv_files argv with
  | Some files => 0 <? len files
  | None => false
  end.

(** The branch [main] takes, when it does not throw first. *)
Definition selectMode (argv : Argv) : option Mode :=
  if negb (len (argv_positional argv) =? 0)
     && match argv_files argv with Some _ => false | None => true end
  then None
  else if hasFiles argv then
    if truthyNumber (argv_threads argv)
    then Some (MultiFileAsN (THREAD_COUNT argv))
    else Some SingleFileAsOne
  else Some Stream.

Definition main (argv : Argv) : Outcome :=
  let log1 :=
    if greaterThan (argv_threads argv) MAX_THREADS
    then match argv_threads argv with
         | Some t => [MaxThreadsWarning MAX_THREADS t]
         | None => []
         end
    else [] in
  let log2 :=
    if Number_isNaN (argv_threads argv) then [InvalidThreadsArgument] else [] in
  let log := log1 ++ log2 in
  if negb (len (argv_positional argv) =? 0)
     && match argv_files argv with Some _ => false | None => true end
  then Failed UsageError log
  else
    match argv_files argv with
    | Some (f :: fs) =>
        let files := f :: fs in
        if truthyNumber (argv_threads argv) then
          match processFilesInParallelArgs files (THREAD_COUNT argv) with
          | Some (out, topSequences) => Done (log ++ out ++ logSequences topSequences)
          | None => WorkerExited log
          end
        else
          match processFilesAsOneArgs files with
          | inr (out, topSequences) => Done (log ++ out ++ logSequences topSequences)
          | inl e => Failed e log
          end
    | _ =>
        let text := processStdIn in
        let topSequences :=
          [{| file := OneFile (js "stdin"); sequences := analyzeText text |}] in
        Done (log ++ logSequences topSequences)
    end.

(** What [main] does in the mode it has selected. *)
Definition runMode (argv : Argv) (log : list Line) (mode : Mode) : Outcome :=
  match mode with
  | MultiFileAsN threadCount =>
      match processFilesInParallelArgs
              (match argv_files argv with Some files => files | None => [] end)
              threadCount with
      | Some (out, topSequences) => Done (log ++ out ++ logSequences topSequences)
      | None => WorkerExited log
      end
  | SingleFileAsOne =>
      match processFilesAsOneArgs
              (match argv_files argv with Some files => files | None => [] end) with
      | inr (out, topSequences) => Done (log ++ out ++ logSequences topSequences)
      | inl e => Failed e log
      end
  | Stream =>
      Done (log ++ logSequences
                     [{| file := OneFile (js "stdin");
                         sequences := analyzeText processStdIn |}])
  end.

Definition warnings (argv : Argv) : list Line :=
  (if greaterThan (argv_threads argv) MAX_THREADS
   then match argv_threads argv with
        | Some t => [MaxThreadsWarning MAX_THREADS t]
        | None => []
        end
   else [])
  ++ (if Number_isNaN (argv_threads argv) then [InvalidThreadsArgument] else []).

End Coordinator.

(** A file system in which [a.txt] can be read and nothing else. *)
Definition readOnlyA (path : jsstring) : option jsstring :=
  if str_eqb path (js "a.txt") then Some (js "x y z") else None.

(** Files and [--threads 1]. *)
Definition argvOneThread : Argv :=
  {| argv_files := Some [FilePath (js "a.txt"); FilePath (js "b.txt")];
     argv_threads := Some (Finite 1);
     argv_positional := [] |}.

(** ** Reading the code: windows, occurrences, joined units *)

(** The windows of three consecutive pieces, from the left, each joined
    with single spaces. *)
Fixpoint windows (textArray : list jsstring) : list jsstring :=
  match textArray with
  | a :: rest =>
      match rest with
      | b :: c :: _ => Array_join (js " ") [a; b; c] :: windows rest
      | _ => []
      end
  | [] => []
  end.

(** How many times a key is among some strings. *)
Definition occurrences (key : jsstring) (l : list jsstring) : Z :=
  len (filter (str_eqb key) l).

(** One pass of the body of the loop of [generateSequenceMap] on the table. *)
Definition countUp (sequenceMap : JSMap) (sequenceText : jsstring) : JSMap :=
  match Map_get sequenceMap sequenceText with
  | Some count => Map_set sequenceMap sequenceText (count + 1)
  | None => Map_set sequenceMap sequenceText 1
  end.

(** The keys of a list of strings in the order in which they first come. *)
Fixpoint firstOccurrences (seen l : list jsstring) : list jsstring :=
  match l with
  | [] => []
  | x :: r =>
      if existsb (str_eqb x) seen then firstOccurrences seen r
      else x :: firstOccurrences (seen ++ [x]) r
  end.

(** A path the programs take for a text file. *)
Definition isTxt (file : jsstring) : bool := String_endsWith file (js ".txt").

Section Reading.
Context {U : Unicode}.
Variable readFile : jsstring -> option jsstring.

(** The characters a token is made of. *)
Definition isTokenChar (c : Z) : bool :=
  isLetter c || isMark c || (c =? APOSTROPHE) || (c =? HYPHEN).

(** A text file that cannot be read. *)
Definition isUnreadable (file : jsstring) : bool :=
  isTxt file && match readFile file with None => true | Some _ => false end.

(** The files that are turned down, in order. *)
Definition invalidFilesOf (files : list jsstring) : list jsstring :=
  filter (fun file => negb (isTxt file)) files.

(** The normalized contents of the text files that can be read, in order. *)
Definition fileTexts (files : list jsstring) : list jsstring :=
  flat_map
    (fun file =>
       if isTxt file then
         match readFile file with
         | Some data => [formatText data]
         | None => []
         end
       else [])
    files.

(** The result for each text file that can be read, in order. *)
Definition fileResults (files : list jsstring) : list FileResult :=
  flat_map
    (fun file =>
       if isTxt file then
         match readFile file with
         | Some data =>
             [{| file := OneFile file;
                 sequences := analyzeText (formatText data) |}]
         | None => []
         end
       else [])
    files.

(** An entry on which a loop over the files stops: a number, or a text file
    that cannot be read. *)
Definition isBadArg (entry : FileArg) : bool :=
  match entry with
  | FilePath file => isUnreadable file
  | FileNumber _ => true
  end.

End Reading.

(** The units with a space before each, as the loops of [processStdIn] and
    [processFilesAsOne] build the text. *)
Definition spacedUnits (units : list jsstring) : jsstring :=
  concat (map (fun unit => js " " ++ unit) units).

(** * Properties *)

(** ** The unit tests of the repository *)

Example generateSequenceMap_test1 :
  generateSequenceMap (js "this is a simple example of sliding window")
  = [ (js "this is a", 1); (js "is a simple", 1); (js "a simple example", 1);
      (js "simple example of", 1); (js "example of sliding", 1);
      (js "of sliding window", 1) ].
Proof. vm_compute. reflexivity. Qed.

Example generateSequenceMap_test2 :
  generateSequenceMap (js "this is a simple example of sliding window this is a")
  = [ (js "this is a", 2); (js "is a simple", 1); (js "a simple example", 1);
      (js "simple example of", 1); (js "example of sliding", 1);
      (js "of sliding window", 1); (js "sliding window this", 1);
      (js "window this is", 1) ].
Proof. vm_compute. reflexivity. Qed.

Example formatText_test_punctuation (U : Unicode) :
  formatText (js "This is a test." ++ [NEWLINE]
              ++ js "New line, (~!@#$$%^&*()_+{}|:<,>.?1;punctuation), isn't! the white whale's state-of-the-art")
  = js "this is a test new line punctuation isn't the white whale's state-of-the-art".
Proof. vm_compute. reflexivity. Qed.

Example formatText_test_apostrophes (U : Unicode) :
  formatText (js " ' isn't 'tis shoes' who's ' ") = js "isn't 'tis shoes' who's".
Proof. vm_compute. reflexivity. Qed.

(** The dash of this test is U+2014, neither a letter nor a mark. *)
Example formatText_test_dash :
  formatText (U := asciiOnly)
    (js " The  White  Whale" ++ [8212] ++ js " the  White Whale! whale-ship")
  = js "the white whale the white whale whale-ship".
Proof. vm_compute. reflexivity. Qed.

Example formatText_test_sandwiches (U : Unicode) :
  formatText (js "I love" ++ [NEWLINE] ++ js "sandwiches.(I LOVE SANDWICHES!!)")
  = js "i love sandwiches i love sandwiches".
Proof. vm_compute. reflexivity. Qed.

Example getTopSequences_test :
  getTopSequences
    [ (js "is a simple", 10); (js "a simple example", 3);
      (js "simple example of", 4); (js "example of sliding", 111);
      (js "this is a", 2); (js "of sliding window", 11) ]
  = [ (js "example of sliding", 111); (js "of sliding window", 11);
      (js "is a simple", 10); (js "simple example of", 4);
      (js "a simple example", 3); (js "this is a", 2) ].
Proof. vm_compute. reflexivity. Qed.

Example splitArrayToNChunks_test2 :
  splitArrayToNChunks [1; 2; 3; 4; 5] 2 = [[1; 2; 3]; [4; 5]].
Proof. vm_compute. reflexivity. Qed.

(** ** Arrays *)

Lemma len_nonneg {A} (l : list A) : 0 <= len l.
Proof. unfold len. lia. Qed.

Lemma len_app {A} (l1 l2 : list A) : len (l1 ++ l2) = len l1 + len l2.
Proof. unfold len. rewrite length_app. lia. Qed.

Lemma len_cons {A} (x : A) (l : list A) : len (x :: l) = len l + 1.
Proof. unfold len. simpl length. lia. Qed.

(** Inside the array, [slice] takes [k] elements from [pos] on. *)
Lemma slice_inside {A} (l : list A) (pos k : Z) :
  0 <= pos -> 0 <= k -> pos + k <= len l ->
  slice l pos (k + pos) = firstn (Z.to_nat k) (skipn (Z.to_nat pos) l).
Proof.
  intros Hpos Hk Hle. unfold slice, relativeIndex.
  destruct (pos <? 0) eqn:E1; [apply Z.ltb_lt in E1; lia|].
  destruct (k + pos <? 0) eqn:E2; [apply Z.ltb_lt in E2; lia|].
  rewrite (Z.min_l pos) by lia. rewrite (Z.min_l (k + pos)) by lia.
  f_equal. lia.
Qed.

(** Past the end, [slice] takes what is left. *)
Lemma slice_clamped {A} (l : list A) (pos k : Z) :
  0 <= pos <= len l -> 0 <= k ->
  slice l pos (pos + k) = firstn (Z.to_nat k) (skipn (Z.to_nat pos) l).
Proof.
  intros Hpos Hk. unfold slice, relativeIndex.
  destruct (pos <? 0) eqn:E1; [apply Z.ltb_lt in E1; lia|].
  destruct (pos + k <? 0) eqn:E2; [apply Z.ltb_lt in E2; lia|].
  rewrite (Z.min_l pos) by lia.
  destruct (Z.le_gt_cases (pos + k) (len l)) as [Hin | Hout].
  - rewrite Z.min_l by lia. f_equal. lia.
  - rewrite Z.min_r by lia.
    assert (Hlen : length (skipn (Z.to_nat pos) l) = Z.to_nat (len l - pos)).
    { rewrite length_skipn. unfold len. lia. }
    rewrite !firstn_all2; trivial; rewrite Hlen; lia.
Qed.

Lemma Array_put_push {A} (l : list A) (hole v : A) :
  Array_put (l ++ [hole]) (len l) v = l ++ [v].
Proof.
  unfold Array_put, len. rewrite Nat2Z.id.
  rewrite firstn_app, firstn_all, Nat.sub_diag. simpl firstn. rewrite app_nil_r.
  rewrite skipn_all2; [reflexivity|]. rewrite length_app. simpl. lia.
Qed.

(** ** The work partitioner *)

Lemma Math_ceil_div_range (a b : Z) :
  0 <= a -> 0 < b -> 0 <= Math_ceil_div a b <= a.
Proof.
  intros Ha Hb. unfold Math_ceil_div.
  assert (H1 := Z.mul_div_le (- a) b Hb).
  assert (H2 := Z.mod_pos_bound (- a) b Hb).
  assert (H3 := Z.div_mod (- a) b ltac:(lia)).
  split; nia.
Qed.

Lemma Math_ceil_div_eq (q r b : Z) :
  0 <= r < b ->
  Math_ceil_div (q * b + r) b = if r =? 0 then q else q + 1.
Proof.
  intros Hr. unfold Math_ceil_div.
  destruct (r =? 0) eqn:E.
  - apply Z.eqb_eq in E. subst r.
    replace (- (q * b + 0)) with ((- q) * b) by ring.
    rewrite Z.div_mul by lia. lia.
  - apply Z.eqb_neq in E.
    replace (- (q * b + r)) with ((- q - 1) * b + (b - r)) by ring.
    rewrite Z.div_add_l by lia. rewrite Z.div_small by lia. lia.
Qed.

Lemma splitLoop_chunksOf {A} (array : list A) (n : Z) (steps : nat) :
  forall (i arrPos : Z) (splitArray : list (list A)),
    i = len splitArray ->
    n - i = Z.of_nat steps ->
    0 <= arrPos <= len array ->
    splitLoop array n steps i arrPos splitArray
    = splitArray ++ chunksOf (skipn (Z.to_nat arrPos) array) steps.
Proof.
  induction steps as [|steps IH]; intros i arrPos splitArray Hi Hn Hpos.
  - simpl. now rewrite app_nil_r.
  - cbn [splitLoop chunksOf].
    assert (Hrest : len (skipn (Z.to_nat arrPos) array) = len array - arrPos).
    { unfold len. rewrite length_skipn. unfold len in Hpos. lia. }
    rewrite Hn, Hrest.
    set (size := Math_ceil_div (len array - arrPos) (Z.of_nat (S steps))).
    assert (Hsize : 0 <= size <= len array - arrPos).
    { apply Math_ceil_div_range; lia. }
    rewrite Hi, Array_put_push.
    rewrite slice_inside by lia.
    rewrite IH.
    + rewrite <- app_assoc. simpl. rewrite skipn_skipn.
      replace (Z.to_nat (arrPos + size)) with (Z.to_nat size + Z.to_nat arrPos)%nat
        by lia.
      reflexivity.
    + rewrite len_app. cbn. lia.
    + lia.
    + lia.
Qed.

Lemma splitArrayToNChunks_chunksOf {A} (array : list A) (n : Z) :
  splitArrayToNChunks array n = chunksOf array (Z.to_nat n).
Proof.
  unfold splitArrayToNChunks.
  destruct (Z.le_gt_cases n 0) as [Hn | Hn].
  - replace (Z.to_nat n) with O by lia. reflexivity.
  - rewrite splitLoop_chunksOf; try reflexivity.
    + unfold len. simpl. lia.
    + pose proof (len_nonneg array). lia.
Qed.

Lemma chunksOf_length {A} (slots : nat) :
  forall rest : list A, length (chunksOf rest slots) = slots.
Proof.
  induction slots as [|slots IH]; intros rest; simpl; [reflexivity|].
  now rewrite IH.
Qed.

Lemma chunksOf_concat {A} (slots : nat) :
  forall rest : list A, (0 < slots)%nat -> concat (chunksOf rest slots) = rest.
Proof.
  induction slots as [|slots IH]; intros rest Hs; [lia|].
  cbn [chunksOf concat].
  destruct slots as [|slots].
  - simpl chunksOf. simpl concat. rewrite app_nil_r.
    replace (Math_ceil_div (len rest) (Z.of_nat 1)) with (len rest).
    + unfold len. rewrite Nat2Z.id. apply firstn_all.
    + change (Z.of_nat 1) with 1. unfold Math_ceil_div. rewrite Z.div_1_r. lia.
  - rewrite IH by lia. apply firstn_skipn.
Qed.

(** The sizes: with [q] the quotient and [r] the remainder of the number of
    elements by the number of slots, [r] chunks of [q + 1] and then chunks of
    [q]. *)
Lemma chunksOf_sizes {A} (slots : nat) :
  forall (rest : list A) (q r : Z),
    len rest = q * Z.of_nat slots + r ->
    0 <= q -> 0 <= r -> (r < Z.of_nat slots \/ (slots = O /\ r = 0)) ->
    map len (chunksOf rest slots)
    = repeat (q + 1) (Z.to_nat r) ++ repeat q (slots - Z.to_nat r).
Proof.
  induction slots as [|slots IH]; intros rest q r Hlen Hq Hr Hlt.
  - replace (Z.to_nat r) with O by lia. reflexivity.
  - destruct Hlt as [Hlt | [Habs _]]; [|discriminate].
    cbn [chunksOf map].
    rewrite Hlen, Math_ceil_div_eq by lia.
    assert (Hfirst : forall k, 0 <= k <= len rest ->
              len (firstn (Z.to_nat k) rest) = k).
    { intros k Hk. unfold len in *. rewrite length_firstn. lia. }
    assert (Hskip : forall k, 0 <= k <= len rest ->
              len (skipn (Z.to_nat k) rest) = len rest - k).
    { intros k Hk. unfold len in *. rewrite length_skipn. lia. }
    destruct (r =? 0) eqn:E.
    + apply Z.eqb_eq in E. subst r.
      rewrite Hfirst by nia.
      rewrite (IH _ q 0); try lia.
      * simpl. now rewrite Nat.sub_0_r.
      * rewrite Hskip by nia. lia.
    + apply Z.eqb_neq in E.
      rewrite Hfirst by nia.
      rewrite (IH _ q (r - 1)); try lia.
      * replace (Z.to_nat r) with (S (Z.to_nat (r - 1))) by lia.
        simpl. do 3 f_equal. 
      * rewrite Hskip by nia. lia.
Qed.

Lemma nth_error_repeat_inv {A} (a : A) (k i : nat) (x : A) :
  nth_error (repeat a k) i = Some x -> x = a.
Proof.
  intros H. apply nth_error_In in H. now apply repeat_spec in H.
Qed.

(** Two plateaus, the higher first, never go up. *)
Lemma plateaus_descend (a b : Z) (x y i j : nat) (u v : Z) :
  b <= a -> (i <= j)%nat ->
  nth_error (repeat a x ++ repeat b y) i = Some u ->
  nth_error (repeat a x ++ repeat b y) j = Some v ->
  v <= u.
Proof.
  intros Hba Hij Hi Hj.
  destruct (Nat.lt_ge_cases j x) as [Hjx | Hjx].
  - rewrite nth_error_app1 in Hi, Hj by (rewrite repeat_length; lia).
    apply nth_error_repeat_inv in Hi, Hj. lia.
  - rewrite (nth_error_app2 _ _ (n := j)) in Hj by (rewrite repeat_length; lia).
    apply nth_error_repeat_inv in Hj. subst v.
    destruct (Nat.lt_ge_cases i x) as [Hix | Hix].
    + rewrite nth_error_app1 in Hi by (rewrite repeat_length; lia).
      apply nth_error_repeat_inv in Hi. lia.
    + rewrite nth_error_app2 in Hi by (rewrite repeat_length; lia).
      apply nth_error_repeat_inv in Hi. lia.
Qed.

(** C2. For an array of [N >= 0] items and a worker count [T >= 1],
    [splitArrayToNChunks] returns exactly [T] chunks, and the chunks put one
    after the other in their order are the array again: every item is in
    one chunk, once, and the order is kept. Chunks are empty where [T > N]:
    the number of chunks does not depend on [N]. *)
Theorem splitArrayToNChunks_covers {A} (array : list A) (T : Z) :
  1 <= T ->
  len (splitArrayToNChunks array T) = T
  /\ concat (splitArrayToNChunks array T) = array.
Proof.
  intros HT. rewrite splitArrayToNChunks_chunksOf. split.
  - unfold len. rewrite chunksOf_length. lia.
  - apply chunksOf_concat. lia.
Qed.

Lemma splitArrayToNChunks_covers_witness :
  len (splitArrayToNChunks [1; 2] 3) = 3
  /\ concat (splitArrayToNChunks [1; 2] 3) = [1; 2].
Proof. apply (splitArrayToNChunks_covers [1; 2] 3). lia. Defined.

(** C3. For an array of [N >= 0] items and a worker count [T >= 1], every
    chunk of [splitArrayToNChunks] has [floor(N/T)] or [ceil(N/T)] items,
    the sizes never grow from a slot to a later one, two sizes differ by one
    at most, and [[1,2,3,4,5]] in 3 chunks is [[[1,2],[3,4],[5]]]. *)
Theorem splitArrayToNChunks_balanced {A} (array : list A) (T : Z) :
  1 <= T ->
  let chunks := splitArrayToNChunks array T in
  (forall c, In c chunks ->
     len c = len array / T \/ len c = Math_ceil_div (len array) T)
  /\ (forall i j c d, (i <= j)%nat ->
        nth_error chunks i = Some c -> nth_error chunks j = Some d ->
        len d <= len c)
  /\ (forall c d, In c chunks -> In d chunks -> len c - len d <= 1)
  /\ splitArrayToNChunks [1; 2; 3; 4; 5] 3 = [[1; 2]; [3; 4]; [5]].
Proof.
  intros HT chunks. subst chunks. rewrite splitArrayToNChunks_chunksOf.
  set (q := len array / T). set (r := len array mod T).
  assert (Hr : 0 <= r < T) by (apply Z.mod_pos_bound; lia).
  assert (Hq : 0 <= q) by (apply Z.div_pos; [apply len_nonneg | lia]).
  assert (Hdm : len array = q * T + r).
  { unfold q, r. rewrite Z.mul_comm. apply Z.div_mod. lia. }
  assert (Hsizes : map len (chunksOf array (Z.to_nat T))
                   = repeat (q + 1) (Z.to_nat r)
                     ++ repeat q (Z.to_nat T - Z.to_nat r)).
  { apply chunksOf_sizes; lia. }
  assert (Hceil : Math_ceil_div (len array) T = if r =? 0 then q else q + 1).
  { rewrite Hdm. now apply Math_ceil_div_eq. }
  assert (Hin : forall c, In c (chunksOf array (Z.to_nat T)) ->
                  len c = q \/ (len c = q + 1 /\ 0 < r)).
  { intros c Hc. apply (in_map len) in Hc. rewrite Hsizes in Hc.
    apply in_app_or in Hc. destruct Hc as [Hc | Hc].
    - right. destruct (Z.to_nat r) eqn:E; [contradiction|].
      apply repeat_spec in Hc. lia.
    - left. now apply repeat_spec in Hc. }
  split; [|split; [|split; [|reflexivity]]].
  - intros c Hc. destruct (Hin c Hc) as [Hc1 | [Hc1 Hpos]]; [now left|].
    right. rewrite Hceil. destruct (r =? 0) eqn:E; [apply Z.eqb_eq in E; lia|].
    exact Hc1.
  - intros i j c d Hij Hi Hj.
    apply (map_nth_error len) in Hi, Hj. rewrite Hsizes in Hi, Hj.
    eapply (plateaus_descend (q + 1) q); [ | exact Hij | exact Hi | exact Hj]. lia.
  - intros c d Hc Hd.
    destruct (Hin c Hc) as [? | [? _]], (Hin d Hd) as [? | [? _]]; lia.
Qed.

Lemma splitArrayToNChunks_balanced_witness :
  let chunks := splitArrayToNChunks [1; 2; 3; 4; 5; 6; 7] 3 in
  (forall c, In c chunks -> len c = 7 / 3 \/ len c = Math_ceil_div 7 3)
  /\ (forall i j c d, (i <= j)%nat ->
        nth_error chunks i = Some c -> nth_error chunks j = Some d ->
        len d <= len c)
  /\ (forall c d, In c chunks -> In d chunks -> len c - len d <= 1)
  /\ splitArrayToNChunks [1; 2; 3; 4; 5] 3 = [[1; 2]; [3; 4]; [5]].
Proof. apply (splitArrayToNChunks_balanced [1; 2; 3; 4; 5; 6; 7] 3). lia. Defined.

(** ** The table and the ranker *)

Lemma str_eqb_spec (a b : jsstring) : str_eqb a b = true <-> a = b.
Proof.
  revert b. induction a as [|x a IH]; intros [|y b]; simpl; split;
    try congruence; try reflexivity.
  - intros H. apply andb_true_iff in H. destruct H as [H1 H2].
    apply Z.eqb_eq in H1. apply IH in H2. congruence.
  - intros H. injection H as -> ->. rewrite Z.eqb_refl. simpl. now apply IH.
Qed.

Lemma str_eqb_refl (a : jsstring) : str_eqb a a = true.
Proof. now apply str_eqb_spec. Qed.

Lemma Map_get_In (m : JSMap) (key : jsstring) (value : Z) :
  Map_wf m -> In (key, value) m -> Map_get m key = Some value.
Proof.
  unfold Map_wf, Map_keys. induction m as [|[k v] m IH]; intros Hwf Hin.
  - contradiction.
  - simpl in *. inversion Hwf as [|? ? Hnotin Hwf']; subst.
    destruct Hin as [Heq | Hin].
    + injection Heq as -> ->. now rewrite str_eqb_refl.
    + destruct (str_eqb k key) eqn:E.
      * apply str_eqb_spec in E. subst k. exfalso. apply Hnotin.
        change key with (fst (key, value)). now apply in_map.
      * now apply IH.
Qed.

Lemma sortInsert_perm {A} (comparefn : A -> A -> Z) (x : A) (l : list A) :
  Permutation (sortInsert comparefn x l) (x :: l).
Proof.
  induction l as [|y r IH]; simpl.
  - apply Permutation_refl.
  - destruct (comparefn x y <=? 0).
    + apply Permutation_refl.
    + eapply Permutation_trans; [apply perm_skip, IH | apply perm_swap].
Qed.

Lemma Array_sort_perm {A} (comparefn : A -> A -> Z) (l : list A) :
  Permutation (Array_sort comparefn l) l.
Proof.
  induction l as [|x l IH]; simpl.
  - apply Permutation_refl.
  - eapply Permutation_trans; [apply sortInsert_perm | now apply perm_skip].
Qed.

Lemma sortInsert_descending (x : jsstring * Z) (l : list (jsstring * Z)) :
  descending l -> descending (sortInsert byCount x l).
Proof.
  induction 1 as [|a|a b l Hab Hd IH]; simpl.
  - constructor.
  - unfold byCount. destruct (snd a - snd x <=? 0) eqn:E.
    + apply Z.leb_le in E. constructor; [lia | constructor].
    + apply Z.leb_gt in E. constructor; [lia | constructor].
  - simpl in IH. unfold byCount in *.
    destruct (snd a - snd x <=? 0) eqn:E.
    + apply Z.leb_le in E. constructor; [lia|]. now constructor.
    + apply Z.leb_gt in E.
      destruct (snd b - snd x <=? 0) eqn:E'.
      * apply Z.leb_le in E'. constructor; [lia | exact IH].
      * constructor; [exact Hab | exact IH].
Qed.

Lemma Array_sort_descending (l : list (jsstring * Z)) :
  descending (Array_sort byCount l).
Proof.
  induction l as [|x l IH]; simpl.
  - constructor.
  - now apply sortInsert_descending.
Qed.

Lemma descending_adjacent (l : list (jsstring * Z)) :
  descending l ->
  forall i a b, nth_error l i = Some a -> nth_error l (S i) = Some b ->
                snd b <= snd a.
Proof.
  induction 1 as [|a0|a0 b0 l Hab Hd IH]; intros i a b Ha Hb.
  - destruct i; discriminate.
  - destruct i as [|[|i]]; discriminate.
  - destruct i as [|i].
    + simpl in Ha, Hb. congruence.
    + exact (IH i a b Ha Hb).
Qed.

Lemma entries_map_id (m : JSMap) :
  map (fun '(key, value) => (key, value)) m = m.
Proof.
  induction m as [|[k v] m IH]; simpl; [reflexivity | now rewrite IH].
Qed.

(** C4. For a frequency table, the list [getTopSequences] returns has every
    key of the table exactly once, each with its count, is as long as the
    table is large, and the count of an entry is at least the count of the
    entry after it. *)
Theorem getTopSequences_ranked (sequenceMap : JSMap) :
  Map_wf sequenceMap ->
  let ranked := getTopSequences sequenceMap in
  (forall key, In key (Map_keys sequenceMap) ->
     count_occ (list_eq_dec Z.eq_dec) (map fst ranked) key = 1%nat)
  /\ (forall key count, In (key, count) ranked ->
        Map_get sequenceMap key = Some count)
  /\ len ranked = Map_size sequenceMap
  /\ (forall i a b, nth_error ranked i = Some a ->
        nth_error ranked (S i) = Some b -> snd a >= snd b).
Proof.
  intros Hwf ranked.
  assert (Hperm : Permutation ranked sequenceMap).
  { unfold ranked, getTopSequences. rewrite entries_map_id. apply Array_sort_perm. }
  assert (Hkeys : Permutation (map fst ranked) (Map_keys sequenceMap)).
  { unfold Map_keys. now apply Permutation_map. }
  split; [|split; [|split]].
  - intros key Hin.
    apply (proj1 (NoDup_count_occ' (list_eq_dec Z.eq_dec) (map fst ranked))).
    + eapply Permutation_NoDup; [apply Permutation_sym, Hkeys | exact Hwf].
    + eapply Permutation_in; [apply Permutation_sym, Hkeys | exact Hin].
  - intros key count Hin. apply Map_get_In; [exact Hwf|].
    eapply Permutation_in; [exact Hperm | exact Hin].
  - unfold Map_size, len. f_equal. now apply Permutation_length.
  - intros i a b Ha Hb. apply Z.le_ge.
    refine (descending_adjacent ranked _ i a b Ha Hb).
    unfold ranked, getTopSequences. rewrite entries_map_id.
    apply Array_sort_descending.
Qed.

Lemma getTopSequences_ranked_witness :
  let sequenceMap := [(js "a b c", 1); (js "b c a", 3); (js "c a b", 2)] in
  let ranked := getTopSequences sequenceMap in
  (forall key, In key (Map_keys sequenceMap) ->
     count_occ (list_eq_dec Z.eq_dec) (map fst ranked) key = 1%nat)
  /\ (forall key count, In (key, count) ranked ->
        Map_get sequenceMap key = Some count)
  /\ len ranked = Map_size sequenceMap
  /\ (forall i a b, nth_error ranked i = Some a ->
        nth_error ranked (S i) = Some b -> snd a >= snd b).
Proof.
  apply (getTopSequences_ranked [(js "a b c", 1); (js "b c a", 3); (js "c a b", 2)]).
  unfold Map_wf. vm_compute.
  repeat (constructor; [simpl; intuition discriminate|]). constructor.
Defined.

(** ** The trigram counter *)

Lemma totalCount_Map_set (m : JSMap) (key : jsstring) (value : Z) :
  totalCount (Map_set m key value)
  = totalCount m + value
    - match Map_get m key with Some old => old | None => 0 end.
Proof.
  induction m as [|[k v] m IH]; simpl.
  - lia.
  - destruct (str_eqb k key); simpl; [lia | rewrite IH; lia].
Qed.

Lemma generateSequenceLoop_total (textArray : list jsstring) (steps : nat) :
  forall (leftIndex : Z) (sequenceMap : JSMap),
    0 <= leftIndex ->
    leftIndex + Z.of_nat steps = len textArray ->
    totalCount (generateSequenceLoop textArray steps leftIndex sequenceMap)
    = totalCount sequenceMap + Z.max 0 (len textArray - 2 - leftIndex).
Proof.
  induction steps as [|steps IH]; intros leftIndex sequenceMap Hpos Hlen.
  - simpl. lia.
  - cbn [generateSequenceLoop].
    rewrite slice_clamped by lia.
    assert (Hl : len (firstn (Z.to_nat 3) (skipn (Z.to_nat leftIndex) textArray))
                 = Z.min 3 (len textArray - leftIndex)).
    { unfold len in *. rewrite length_firstn, length_skipn. lia. }
    rewrite Hl.
    destruct (Z.min 3 (len textArray - leftIndex) <? 3) eqn:E.
    + apply Z.ltb_lt in E. lia.
    + apply Z.ltb_ge in E. rewrite IH by lia.
      set (key := Array_join (js " ") _).
      destruct (Map_get sequenceMap key) as [count|] eqn:G;
        rewrite totalCount_Map_set, G; lia.
Qed.

(** Whatever the text, the counts add up to the number of pieces that
    [split] gives, less two. *)
Lemma generateSequenceMap_total_pieces (text : jsstring) :
  totalCount (generateSequenceMap text)
  = Z.max 0 (len (String_split SPACE text) - 2).
Proof.
  unfold generateSequenceMap. rewrite generateSequenceLoop_total.
  - simpl. lia.
  - lia.
  - unfold len. lia.
Qed.

(** In a text with no space at its end and no two spaces in a row, the pieces
    after the first are not empty. *)
Lemma String_split_tail_nonempty (s : jsstring) :
  endsWithSpace s = false -> hasSpaceRun s = false ->
  forallb (fun w => negb (isEmpty w)) (tl (String_split SPACE s)) = true.
Proof.
  induction s as [|c r IH]; intros Hend Hrun; [reflexivity|].
  assert (Hend' : r <> [] -> endsWithSpace r = false).
  { intros Hr. destruct r; [congruence | exact Hend]. }
  simpl in Hrun. apply orb_false_iff in Hrun. destruct Hrun as [Hadj Hrun].
  simpl. destruct (c =? SPACE) eqn:E.
  - apply Z.eqb_eq in E. subst c.
    destruct r as [|d r'].
    + discriminate Hend.
    + simpl tl. specialize (IH (Hend' ltac:(discriminate)) Hrun).
      simpl in Hadj. change (isWhiteSpace SPACE) with true in Hadj.
      simpl in Hadj.
      simpl String_split in *.
      destruct (d =? SPACE) eqn:E'.
      * apply Z.eqb_eq in E'. subst d. discriminate Hadj.
      * destruct (String_split SPACE r'); simpl in *; exact IH.
  - destruct r as [|d r'].
    + reflexivity.
    + specialize (IH (Hend' ltac:(discriminate)) Hrun).
      destruct (String_split SPACE (d :: r')); [reflexivity | exact IH].
Qed.

Lemma String_split_nonempty (s : jsstring) :
  s <> [] -> isTrimmed s = true -> hasSpaceRun s = false ->
  tokens s = String_split SPACE s.
Proof.
  intros Hs Htrim Hrun. unfold isTrimmed in Htrim.
  apply andb_true_iff in Htrim. destruct Htrim as [Hstart Hend].
  apply negb_true_iff in Hstart, Hend.
  pose proof (String_split_tail_nonempty s Hend Hrun) as Htail.
  unfold tokens.
  destruct s as [|c r]; [congruence|].
  simpl in Hstart. simpl String_split in *.
  destruct (c =? SPACE) eqn:E.
  - apply Z.eqb_eq in E. subst c. discriminate Hstart.
  - assert (Hall : forall l : list jsstring,
              forallb (fun w => negb (isEmpty w)) l = true ->
              filter (fun w => negb (isEmpty w)) l = l).
    { induction l as [|w l IHl]; simpl; [reflexivity|].
      intros H. apply andb_true_iff in H. destruct H as [-> H].
      now rewrite IHl. }
    destruct (String_split SPACE r) as [|w ws]; simpl in *.
    + reflexivity.
    + now rewrite Hall.
Qed.

(** Boolean conjunctions, negations and string tests as propositions. *)
Ltac bool_to_prop :=
  repeat rewrite ?andb_true_iff, ?negb_true_iff, ?orb_false_iff, ?str_eqb_spec in *.

Section NormalizedTextParts.
Context {U : Unicode}.

(** The parts of the invariant, one by one. *)
Lemma NormalizedText_parts (s : jsstring) :
  NormalizedText s = true
  <-> noNewlines s = true
      /\ startsWithSpace s = false /\ endsWithSpace s = false
      /\ hasSpaceRun s = false
      /\ hasLoneApostrophe s = false
      /\ onlyPlainSpaces s = true
      /\ forallb isKept s = true
      /\ toLowerCase s = s.
Proof.
  unfold NormalizedText, wellSpaced, isTrimmed. bool_to_prop. tauto.
Qed.

End NormalizedTextParts.

Section TrigramCounter.
Context {U : Unicode}.

(** C1. For a Normalized Text with [L] tokens, the counts of the table that
    [generateSequenceMap] returns add up to [max(0, L - 2)]; the empty text
    gives the empty table, and a text of three tokens a table with one
    entry, of count 1. *)
Theorem generateSequenceMap_counts (text : jsstring) :
  NormalizedText text = true ->
  totalCount (generateSequenceMap text) = Z.max 0 (tokenCount text - 2)
  /\ (text = [] -> generateSequenceMap text = [])
  /\ (tokenCount text = 3 ->
      exists a b c, tokens text = [a; b; c]
        /\ generateSequenceMap text = [(Array_join (js " ") [a; b; c], 1)]).
Proof.
  intros Hnorm. apply NormalizedText_parts in Hnorm.
  destruct Hnorm as (_ & Hstart & Hend & Hrun & _).
  assert (Htrim : isTrimmed text = true).
  { unfold isTrimmed. now rewrite Hstart, Hend. }
  destruct text as [|c0 r0] eqn:Etext.
  - split; [reflexivity | split; [reflexivity | discriminate]].
  - rewrite <- Etext in *.
    assert (Htok : tokens text = String_split SPACE text).
    { apply String_split_nonempty; trivial. rewrite Etext. discriminate. }
    split; [|split].
    + rewrite generateSequenceMap_total_pieces. unfold tokenCount.
      now rewrite Htok.
    + rewrite Etext. discriminate.
    + unfold tokenCount, len. intros H3.
      destruct (tokens text) as [|a [|b [|c [|d l]]]] eqn:E;
        simpl in H3; try lia.
      exists a, b, c. split; [reflexivity|].
      unfold generateSequenceMap. rewrite <- Htok. reflexivity.
Qed.

End TrigramCounter.

Lemma generateSequenceMap_counts_witness :
  let text := js "one two three four" in
  @NormalizedText asciiOnly text = true
  /\ totalCount (generateSequenceMap text) = Z.max 0 (tokenCount text - 2).
Proof.
  split; [vm_compute; reflexivity|].
  apply (@generateSequenceMap_counts asciiOnly (js "one two three four")).
  vm_compute. reflexivity.
Defined.

(** ** Global replacement and trimming *)

Lemma replaceScan_skip (m : Matcher) (repl s : jsstring) (k : nat) :
  replaceScan m repl s k = replaceAll m repl (skipn k s).
Proof.
  revert k. induction s as [|c r IH]; intros [|k]; try reflexivity.
  simpl. apply IH.
Qed.

Lemma replaceAll_cons (m : Matcher) (repl : jsstring) (c : Z) (r : jsstring) :
  replaceAll m repl (c :: r)
  = match m c r with
    | Some k => repl ++ replaceAll m repl (skipn k r)
    | None => c :: replaceAll m repl r
    end.
Proof.
  unfold replaceAll at 1. simpl.
  destruct (m c r) as [k|]; [now rewrite replaceScan_skip | reflexivity].
Qed.

(** A class replaced by one character: a map over the text. *)
Lemma replaceAll_class (p : Z -> bool) (x : Z) (s : jsstring) :
  replaceAll (matchClass p) [x] s = map (fun c => if p c then x else c) s.
Proof.
  induction s as [|c r IH]; [reflexivity|].
  rewrite replaceAll_cons. unfold matchClass at 1. simpl map.
  destruct (p c); simpl; now rewrite IH.
Qed.

Lemma replaceAll_class_none (p : Z -> bool) (x : Z) (s : jsstring) :
  forallb (fun c => negb (p c)) s = true ->
  replaceAll (matchClass p) [x] s = s.
Proof.
  rewrite replaceAll_class. induction s as [|c r IH]; simpl; [reflexivity|].
  intros H. apply andb_true_iff in H. destruct H as [Hc Hr].
  apply negb_true_iff in Hc. rewrite Hc. now rewrite IH.
Qed.

Lemma skipn_spaceRun (s : jsstring) : skipn (spaceRun s) s = trimStart s.
Proof.
  induction s as [|c r IH]; [reflexivity|].
  simpl. destruct (isWhiteSpace c); [exact IH | reflexivity].
Qed.

Lemma trimStart_length (s : jsstring) : (length (trimStart s) <= length s)%nat.
Proof.
  induction s as [|c r IH]; simpl; [lia|].
  destruct (isWhiteSpace c); simpl; lia.
Qed.

Lemma trimStart_starts (s : jsstring) : startsWithSpace (trimStart s) = false.
Proof.
  induction s as [|c r IH]; simpl; [reflexivity|].
  destruct (isWhiteSpace c) eqn:E; [exact IH | simpl; exact E].
Qed.

(** What [\s+] replaced by a space leaves: white space is the space, one at
    a time. *)
Lemma collapse_cons (c : Z) (r : jsstring) :
  replaceAll matchSpaces (js " ") (c :: r)
  = if isWhiteSpace c
    then SPACE :: replaceAll matchSpaces (js " ") (trimStart r)
    else c :: replaceAll matchSpaces (js " ") r.
Proof.
  rewrite replaceAll_cons. unfold matchSpaces at 1.
  destruct (isWhiteSpace c); [|reflexivity].
  now rewrite skipn_spaceRun.
Qed.

Lemma collapse_spacing (n : nat) :
  forall s, (length s <= n)%nat ->
    let out := replaceAll matchSpaces (js " ") s in
    onlyPlainSpaces out = true
    /\ hasSpaceRun out = false
    /\ (startsWithSpace s = false -> startsWithSpace out = false).
Proof.
  induction n as [|n IH]; intros s Hlen.
  - destruct s; [|simpl in Hlen; lia]. repeat split.
  - destruct s as [|c r]; [repeat split|].
    simpl in Hlen. cbv zeta. rewrite collapse_cons.
    destruct (isWhiteSpace c) eqn:E.
    + pose proof (trimStart_length r) as Hl.
      destruct (IH (trimStart r) ltac:(lia)) as (H1 & H2 & H3).
      specialize (H3 (trimStart_starts r)).
      split; [|split].
      * simpl. exact H1.
      * simpl. rewrite H3, H2. reflexivity.
      * simpl. rewrite E. discriminate.
    + destruct (IH r ltac:(lia)) as (H1 & H2 & _).
      split; [|split].
      * simpl. rewrite E. simpl. exact H1.
      * simpl. rewrite E. simpl. exact H2.
      * intros _. simpl. exact E.
Qed.

Lemma trimStart_forallb (P : Z -> bool) (s : jsstring) :
  forallb P s = true -> forallb P (trimStart s) = true.
Proof.
  induction s as [|c r IH]; simpl; [reflexivity|]. intros H.
  destruct (isWhiteSpace c); [|exact H].
  apply andb_true_iff in H. now apply IH.
Qed.

Lemma trimStart_hasSpaceRun (s : jsstring) :
  hasSpaceRun s = false -> hasSpaceRun (trimStart s) = false.
Proof.
  induction s as [|c r IH]; simpl; [reflexivity|]. intros H.
  apply orb_false_iff in H. destruct H as [Ha Hr].
  destruct (isWhiteSpace c) eqn:E.
  - now apply IH.
  - simpl. now rewrite E, Hr.
Qed.

Lemma trimEnd_head (s : jsstring) (x : Z) (t : jsstring) :
  trimEnd s = x :: t -> exists r, s = x :: r.
Proof.
  destruct s as [|c r]; simpl; [discriminate|].
  destruct (trimEnd r); [destruct (isWhiteSpace c)|]; intros H;
    try discriminate; injection H as -> _; now exists r.
Qed.

Lemma trimEnd_starts (s : jsstring) :
  startsWithSpace s = false -> startsWithSpace (trimEnd s) = false.
Proof.
  intros H. destruct (trimEnd s) as [|x t] eqn:E; [reflexivity|].
  apply trimEnd_head in E. destruct E as [r ->]. exact H.
Qed.

Lemma trimEnd_forallb (P : Z -> bool) (s : jsstring) :
  forallb P s = true -> forallb P (trimEnd s) = true.
Proof.
  induction s as [|c r IH]; simpl; [reflexivity|]. intros H.
  apply andb_true_iff in H. destruct H as [Hc Hr]. specialize (IH Hr).
  destruct (trimEnd r) as [|x t].
  - destruct (isWhiteSpace c); simpl; [reflexivity | now rewrite Hc].
  - change (forallb P (c :: x :: t)) with (P c && forallb P (x :: t)).
    now rewrite Hc, IH.
Qed.

(** A replacement brings in no character but those of the text and of what
    is put for the matches. *)
Lemma replaceAll_forallb (P : Z -> bool) (m : Matcher) (repl s : jsstring) :
  forallb P repl = true -> forallb P s = true ->
  forallb P (replaceAll m repl s) = true.
Proof.
  intros Hrepl. unfold replaceAll. generalize O as skip.
  induction s as [|c r IH]; intros skip Hs; [reflexivity|].
  simpl in Hs. apply andb_true_iff in Hs. destruct Hs as [Hc Hr].
  simpl. destruct skip as [|k].
  - destruct (m c r) as [k|].
    + rewrite forallb_app, Hrepl. now apply IH.
    + simpl. rewrite Hc. now apply IH.
  - now apply IH.
Qed.

Lemma trimEnd_hasSpaceRun (s : jsstring) :
  hasSpaceRun s = false -> hasSpaceRun (trimEnd s) = false.
Proof.
  induction s as [|c r IH]; simpl; [reflexivity|]. intros H.
  apply orb_false_iff in H. destruct H as [Ha Hr]. specialize (IH Hr).
  destruct (trimEnd r) as [|x t] eqn:E.
  - destruct (isWhiteSpace c); simpl; [reflexivity|].
    now destruct (isWhiteSpace c).
  - change (hasSpaceRun (c :: x :: t))
      with ((isWhiteSpace c && startsWithSpace (x :: t)) || hasSpaceRun (x :: t)).
    rewrite IH. apply trimEnd_head in E. destruct E as [r' ->].
    simpl in Ha |- *. now rewrite Ha.
Qed.

Lemma trimEnd_ends (s : jsstring) : endsWithSpace (trimEnd s) = false.
Proof.
  induction s as [|c r IH]; simpl; [reflexivity|].
  destruct (trimEnd r) as [|x t].
  - destruct (isWhiteSpace c) eqn:E; simpl; [reflexivity | exact E].
  - exact IH.
Qed.

Lemma onlyPlainSpaces_noNewlines (s : jsstring) :
  onlyPlainSpaces s = true -> noNewlines s = true.
Proof.
  induction s as [|c r IH]; simpl; [reflexivity|]. intros H.
  apply andb_true_iff in H. destruct H as [Hc Hr].
  rewrite (IH Hr), andb_true_r.
  destruct (c =? NEWLINE) eqn:E; [|reflexivity].
  apply Z.eqb_eq in E. subst c. discriminate Hc.
Qed.

Section NormalizerProperties.
Context {U : Unicode}.

(** What [formatText] does give, whatever the text: no newline and no white
    space but the space, none at the ends, and never two in a row. *)
Lemma formatText_spacing (text : jsstring) :
  noNewlines (formatText text) = true
  /\ onlyPlainSpaces (formatText text) = true
  /\ isTrimmed (formatText text) = true
  /\ hasSpaceRun (formatText text) = false.
Proof.
  unfold formatText. cbv zeta.
  set (t4 := replaceAll matchLoneApostrophe _ _).
  destruct (collapse_spacing (length t4) t4 (Nat.le_refl _)) as (H1 & H2 & _).
  set (t5 := replaceAll matchSpaces _ t4) in *.
  assert (Hplain : onlyPlainSpaces (trim t5) = true).
  { unfold trim, onlyPlainSpaces. now apply trimEnd_forallb, trimStart_forallb. }
  split; [|split; [|split]].
  - now apply onlyPlainSpaces_noNewlines.
  - exact Hplain.
  - unfold isTrimmed, trim.
    rewrite trimEnd_starts by apply trimStart_starts.
    now rewrite trimEnd_ends.
  - unfold trim. now apply trimEnd_hasSpaceRun, trimStart_hasSpaceRun.
Qed.

(** And no character but letters, marks, apostrophes, hyphens and
    spaces. *)
Lemma formatText_kept (text : jsstring) :
  forallb isKept (formatText text) = true.
Proof.
  unfold formatText, trim. cbv zeta.
  apply trimEnd_forallb, trimStart_forallb.
  do 2 (apply replaceAll_forallb; [reflexivity|]).
  change (js " ") with [SPACE]. rewrite (replaceAll_class (fun c => negb (isKept c))).
  generalize (replaceAll (matchClass (fun c => c =? NEWLINE)) [SPACE]
                (toLowerCase text)) as t2.
  induction t2 as [|c r IH]; simpl; [reflexivity|].
  rewrite IH, andb_true_r.
  destruct (isKept c) eqn:E; simpl; [exact E | reflexivity].
Qed.

End NormalizerProperties.

(** ** ASCII text

    On ASCII text the tables beyond ASCII are never looked at: every
    database gives what [asciiOnly] gives. *)

Lemma toLowerCaseFrom_ascii {U : Unicode} (s : jsstring) :
  forallb isAscii s = true ->
  forall before, toLowerCaseFrom before s = map asciiLower s.
Proof.
  induction s as [|c r IH]; intros H before; [reflexivity|].
  simpl in H. apply andb_true_iff in H. destruct H as [Hc Hr].
  simpl. rewrite Hc. simpl. now rewrite IH.
Qed.

Lemma asciiLower_ascii (c : Z) : isAscii c = true -> isAscii (asciiLower c) = true.
Proof.
  unfold isAscii, asciiLower. intros H.
  destruct ((65 <=? c) && (c <=? 90)) eqn:E; [|exact H].
  bool_to_prop. lia.
Qed.

Lemma isKept_ascii {U : Unicode} (c : Z) :
  isAscii c = true -> isKept c = @isKept asciiOnly c.
Proof.
  intros H. unfold isKept, isLetter, isMark. now rewrite H.
Qed.

Lemma formatText_ascii {U : Unicode} (text : jsstring) :
  forallb isAscii text = true ->
  formatText text = @formatText asciiOnly text.
Proof.
  intros H. unfold formatText, toLowerCase. cbv zeta.
  rewrite (toLowerCaseFrom_ascii text H).
  rewrite (toLowerCaseFrom_ascii (U := asciiOnly) text H).
  change (js " ") with [SPACE].
  rewrite !(replaceAll_class (fun c => c =? NEWLINE)).
  rewrite (replaceAll_class (fun c => negb (isKept c))).
  rewrite (replaceAll_class (fun c => negb (@isKept asciiOnly c))).
  do 3 f_equal. rewrite !map_map. apply map_ext_in.
  intros c Hc. rewrite forallb_forall in H. specialize (H c Hc).
  apply asciiLower_ascii in H.
  destruct (asciiLower c =? NEWLINE); [reflexivity|].
  now rewrite (isKept_ascii _ H).
Qed.

(** ** The normalizer on Normalized Text *)

Lemma spaceRun_zero (s : jsstring) : startsWithSpace s = false -> spaceRun s = O.
Proof.
  destruct s as [|c r]; simpl; [reflexivity|]. now intros ->.
Qed.

Lemma trimStart_id (s : jsstring) : startsWithSpace s = false -> trimStart s = s.
Proof.
  destruct s as [|c r]; simpl; [reflexivity|]. now intros ->.
Qed.

Lemma trimEnd_id (s : jsstring) : endsWithSpace s = false -> trimEnd s = s.
Proof.
  induction s as [|c r IH]; [reflexivity|].
  destruct r as [|d r'].
  - simpl. now intros ->.
  - intros H. change (endsWithSpace (d :: r') = false) in H.
    specialize (IH H). simpl in IH |- *. now rewrite IH.
Qed.

Lemma hasLoneApostrophe_tail (c : Z) (r : jsstring) :
  hasLoneApostrophe (c :: r) = false -> hasLoneApostrophe r = false.
Proof.
  destruct r as [|a [|b r']]; try reflexivity.
  intros H. change (hasLoneApostrophe (c :: a :: b :: r'))
    with ((isWhiteSpace c && (a =? APOSTROPHE) && isWhiteSpace b)
          || hasLoneApostrophe (a :: b :: r')) in H.
  now apply orb_false_iff in H.
Qed.

Lemma replace_lone_apostrophe_id (s : jsstring) :
  hasSpaceRun s = false -> hasLoneApostrophe s = false ->
  replaceAll matchLoneApostrophe (js " ") s = s.
Proof.
  induction s as [|c r IH]; intros Hrun Hlone; [reflexivity|].
  rewrite replaceAll_cons.
  pose proof (hasLoneApostrophe_tail c r Hlone) as Hlone'.
  simpl in Hrun. apply orb_false_iff in Hrun. destruct Hrun as [Hadj Hrun].
  assert (Hnone : matchLoneApostrophe c r = None).
  { unfold matchLoneApostrophe. destruct (isWhiteSpace c) eqn:E; [|reflexivity].
    simpl in Hadj. rewrite (spaceRun_zero r Hadj). simpl skipn.
    destruct r as [|a [|b r']]; try reflexivity.
    change (hasLoneApostrophe (c :: a :: b :: r'))
      with ((isWhiteSpace c && (a =? APOSTROPHE) && isWhiteSpace b)
            || hasLoneApostrophe (a :: b :: r')) in Hlone.
    apply orb_false_iff in Hlone. destruct Hlone as [Hhere _].
    rewrite E in Hhere. simpl in Hhere. now rewrite Hhere. }
  rewrite Hnone. now rewrite IH.
Qed.

Lemma collapse_id (s : jsstring) :
  onlyPlainSpaces s = true -> hasSpaceRun s = false ->
  replaceAll matchSpaces (js " ") s = s.
Proof.
  induction s as [|c r IH]; intros Hplain Hrun; [reflexivity|].
  rewrite collapse_cons.
  simpl in Hplain. apply andb_true_iff in Hplain. destruct Hplain as [Hc Hplain].
  simpl in Hrun. apply orb_false_iff in Hrun. destruct Hrun as [Hadj Hrun].
  destruct (isWhiteSpace c) eqn:E.
  - simpl in Hc, Hadj. apply Z.eqb_eq in Hc. subst c.
    rewrite (trimStart_id r Hadj). now rewrite IH.
  - now rewrite IH.
Qed.

Section Idempotence.
Context {U : Unicode}.

(** A Normalized Text is what [formatText] makes of it. *)
Lemma formatText_fixes_normalized (x : jsstring) :
  NormalizedText x = true -> formatText x = x.
Proof.
  intros H. apply NormalizedText_parts in H.
  destruct H as (Hnl & Hstart & Hend & Hrun & Hlone & Hplain & Hkept & Hlower).
  unfold formatText. cbv zeta. rewrite Hlower.
  change (js " ") with [SPACE].
  rewrite (replaceAll_class_none (fun c => c =? NEWLINE)) by exact Hnl.
  rewrite replaceAll_class_none.
  2:{ clear - Hkept. induction x as [|c r IH]; [reflexivity|].
      simpl in Hkept |- *. apply andb_true_iff in Hkept.
      destruct Hkept as [-> Hr]. now apply IH. }
  change [SPACE] with (js " ").
  rewrite replace_lone_apostrophe_id by assumption.
  rewrite collapse_id by assumption.
  unfold trim. rewrite trimStart_id by assumption. now apply trimEnd_id.
Qed.

(** What [formatText] gives is in normalized form as soon as it is in lower
    case and no apostrophe is left alone in it. *)
Lemma formatText_output_normalized (text : jsstring) :
  toLowerCase (formatText text) = formatText text ->
  hasLoneApostrophe (formatText text) = false ->
  NormalizedText (formatText text) = true.
Proof.
  intros Hlower Hlone.
  destruct (formatText_spacing text) as (Hnl & Hplain & Htrim & Hrun).
  unfold isTrimmed in Htrim. bool_to_prop.
  apply NormalizedText_parts. pose proof (formatText_kept text). tauto.
Qed.

(** C7. The normalizer is idempotent on normalized inputs: for a string [x]
    in normalized form, [formatText(formatText(x))] is [formatText(x)]. *)
Theorem formatText_idempotent (x : jsstring) :
  NormalizedText x = true -> formatText (formatText x) = formatText x.
Proof.
  intros H. now rewrite !(formatText_fixes_normalized x H).
Qed.

(** C6, at ["a ' ' b"]. The match of [/\s+'\s+/g] on the first apostrophe
    takes the space before the second one with it, and the search goes on
    from the second apostrophe itself: it stays, alone between two spaces. *)
Theorem formatText_leaves_lone_apostrophe :
  formatText (js "a ' ' b") = js "a ' b"
  /\ hasLoneApostrophe (formatText (js "a ' ' b")) = true
  /\ wellSpaced (formatText (js "a ' ' b")) = false.
Proof. vm_compute. repeat split. Qed.

(** So the outputs of [formatText] are not all in normalized form, and on
    such an output a second pass changes the text again. *)
Example formatText_twice :
  formatText (js "a ' ' ' ' b") = js "a ' ' b"
  /\ formatText (js "a ' ' b") = js "a ' b"
  /\ formatText (js "a ' b") = js "a b".
Proof. vm_compute. repeat split. Qed.

End Idempotence.

Lemma formatText_idempotent_witness :
  let x := js "isn't 'tis shoes' state-of-the-art" in
  @NormalizedText asciiOnly x = true
  /\ @formatText asciiOnly (@formatText asciiOnly x) = @formatText asciiOnly x.
Proof.
  split; [vm_compute; reflexivity|].
  apply (@formatText_idempotent asciiOnly (js "isn't 'tis shoes' state-of-the-art")).
  vm_compute. reflexivity.
Defined.

(** ** The coordinator *)

Section CoordinatorProperties.
Context {U : Unicode}.
Variable MAX_THREADS : Z.
Variable readFile : jsstring -> option jsstring.
Variable stdin : list jsstring.

(** [selectMode] is the branch of [main]. *)
Lemma main_selectMode (argv : Argv) :
  main MAX_THREADS readFile stdin argv
  = match selectMode MAX_THREADS argv with
    | None => Failed UsageError (warnings MAX_THREADS argv)
    | Some mode => runMode readFile stdin argv (warnings MAX_THREADS argv) mode
    end.
Proof.
  unfold main, selectMode, hasFiles, warnings. cbv zeta.
  destruct (negb (len (argv_positional argv) =? 0)
            && match argv_files argv with Some _ => false | None => true end);
    [reflexivity|].
  destruct (argv_files argv) as [[|f fs]|] eqn:Efiles; try reflexivity.
  - rewrite len_cons.
    destruct (0 <? len fs + 1) eqn:E.
    + destruct (truthyNumber (argv_threads argv)); unfold runMode;
        rewrite Efiles; reflexivity.
    + apply Z.ltb_ge in E. pose proof (len_nonneg fs). lia.
Qed.

End CoordinatorProperties.

Lemma truthyNumber_spec (t : option JSNumber) :
  truthyNumber t = true <-> exists q, t = Some (Finite q) /\ ~ (q == 0)%Q.
Proof.
  split.
  - destruct t as [[|q]|]; simpl; try discriminate. intros H.
    exists q. split; [reflexivity|]. apply negb_true_iff in H.
    now apply Qeq_bool_neq.
  - intros (q & -> & Hq). simpl. apply negb_true_iff.
    destruct (Qeq_bool q 0) eqn:E; [|reflexivity].
    apply Qeq_bool_iff in E. contradiction.
Qed.

Lemma Math_round_low (q : Q) (M : Z) :
  1 <= M -> Math_round q <= 0 -> Qle_bool q (inject_Z M) = true.
Proof.
  intros HM Hr. apply Qle_bool_iff. unfold Math_round in Hr.
  pose proof (Qlt_floor (q + (1 # 2))) as H1.
  assert (H2 : (inject_Z (Qfloor (q + (1 # 2)) + 1) <= inject_Z 1)%Q).
  { rewrite <- Zle_Qle. lia. }
  assert (H3 : (inject_Z 1 <= inject_Z M)%Q) by (rewrite <- Zle_Qle; lia).
  change (inject_Z 1) with 1%Q in *.
  lra.
Qed.

(** C5, as stated, at [-f a.txt b.txt -t 1] on a host of four processors
    where every file reads [x y z]: the count is 1, the default, and [main]
    takes [processFilesInParallel], with a list for each file, not
    [processFilesAsOne]. *)
Lemma selectMode_one_thread :
  selectMode 4 argvOneThread = Some (MultiFileAsN 1)
  /\ selectMode 4 argvOneThread <> Some SingleFileAsOne
  /\ @main asciiOnly 4 (fun _ => Some (js "x y z")) [] argvOneThread
     = Done [ TopSequencesHeader (OneFile (js "a.txt"));
              SequenceLine 1 (js "x y z") 1;
              TopSequencesHeader (OneFile (js "b.txt"));
              SequenceLine 1 (js "x y z") 1 ].
Proof.
  split; [vm_compute; reflexivity|].
  split; [vm_compute; discriminate|].
  vm_compute. reflexivity.
Qed.

(** C5, amended. When [main] does not stop on the usage error, it selects
    Multi-file-as-N mode exactly when a file list that is not empty is given
    and the worker count supplied is a number other than 0 and [NaN], 1
    included; with such a file list and no such count it selects
    Single-file-as-one mode; with no file it selects Stream mode. *)
Theorem selectMode_rule (MAX_THREADS : Z) (argv : Argv) :
  argv_positional argv = [] \/ argv_files argv <> None ->
  (selectMode MAX_THREADS argv = Some (MultiFileAsN (THREAD_COUNT MAX_THREADS argv))
   <-> hasFiles argv = true
       /\ exists q, argv_threads argv = Some (Finite q) /\ ~ (q == 0)%Q)
  /\ (forall threadCount,
        selectMode MAX_THREADS argv = Some (MultiFileAsN threadCount) ->
        threadCount = THREAD_COUNT MAX_THREADS argv)
  /\ (hasFiles argv = true ->
      ~ (exists q, argv_threads argv = Some (Finite q) /\ ~ (q == 0)%Q) ->
      selectMode MAX_THREADS argv = Some SingleFileAsOne)
  /\ (hasFiles argv = false -> selectMode MAX_THREADS argv = Some Stream).
Proof.
  intros Husage. unfold selectMode.
  assert (Hguard : negb (len (argv_positional argv) =? 0)
                   && match argv_files argv with Some _ => false | None => true end
                   = false).
  { destruct Husage as [-> | Hfiles]; [reflexivity|].
    destruct (argv_files argv); [apply andb_false_r | congruence]. }
  rewrite Hguard. rewrite <- truthyNumber_spec.
  destruct (hasFiles argv), (truthyNumber (argv_threads argv));
    (split; [split|split; [|split]]); try congruence; try tauto;
    intros;
    repeat match goal with
           | H : _ /\ _ |- _ => destruct H
           end;
    try discriminate.
Qed.

Lemma selectMode_rule_witness :
  selectMode 4 argvOneThread = Some (MultiFileAsN (THREAD_COUNT 4 argvOneThread))
  <-> hasFiles argvOneThread = true
      /\ exists q, argv_threads argvOneThread = Some (Finite q) /\ ~ (q == 0)%Q.
Proof.
  apply (selectMode_rule 4 argvOneThread). left. reflexivity.
Defined.

Lemma splitArrayToNChunks_none {A} (array : list A) (n : Z) :
  n <= 0 -> splitArrayToNChunks array n = [].
Proof.
  intros Hn. rewrite splitArrayToNChunks_chunksOf.
  now replace (Z.to_nat n) with O by lia.
Qed.

(** C10. A worker count that is a number, not zero, and that [Math.round]
    takes to zero or below (0.4, or a negative value), with a file list that
    is not empty: [main] selects Multi-file-as-N mode, the partitioner
    returns no chunk, so that no worker is made, no file is read, and the
    run prints nothing: no result and no report of invalid files. At 0.4
    the worker count is 0. *)
Theorem main_zero_workers {U : Unicode} (MAX_THREADS : Z)
    (readFile : jsstring -> option jsstring) (stdin : list jsstring)
    (files : list FileArg) (positional : list jsstring) (q : Q) :
  1 <= MAX_THREADS -> files <> [] -> ~ (q == 0)%Q -> Math_round q <= 0 ->
  let argv := {| argv_files := Some files;
                 argv_threads := Some (Finite q);
                 argv_positional := positional |} in
  selectMode MAX_THREADS argv = Some (MultiFileAsN (Math_round q))
  /\ splitArrayToNChunks files (Math_round q) = []
  /\ processFilesInParallelArgs readFile files (Math_round q) = Some ([], [])
  /\ (forall paths : list jsstring,
        processFilesInParallel readFile paths (Math_round q) = Some ([], []))
  /\ main MAX_THREADS readFile stdin argv = Done [].
Proof.
  intros Hmax Hfiles Hq Hround argv.
  assert (Htruthy : truthyNumber (argv_threads argv) = true).
  { apply truthyNumber_spec. now exists q. }
  assert (Hcount : THREAD_COUNT MAX_THREADS argv = Math_round q).
  { unfold THREAD_COUNT. simpl in Htruthy |- *. rewrite Htruthy. lia. }
  assert (Hhas : hasFiles argv = true).
  { unfold hasFiles. simpl. destruct files; [congruence|].
    rewrite len_cons. pose proof (len_nonneg files). apply Z.ltb_lt. lia. }
  assert (Hmode : selectMode MAX_THREADS argv = Some (MultiFileAsN (Math_round q))).
  { unfold selectMode. rewrite Hhas, Htruthy, Hcount.
    simpl. now rewrite andb_false_r. }
  assert (Hpar : processFilesInParallelArgs readFile files (Math_round q)
                 = Some ([], [])).
  { unfold processFilesInParallelArgs.
    now rewrite (splitArrayToNChunks_none files (Math_round q) Hround). }
  split; [exact Hmode|].
  split; [now apply splitArrayToNChunks_none|].
  split; [exact Hpar|].
  split.
  { intros paths. unfold processFilesInParallel.
    now rewrite (splitArrayToNChunks_none paths (Math_round q) Hround). }
  rewrite main_selectMode, Hmode. unfold runMode. cbn [argv argv_files].
  rewrite Hpar. unfold warnings. simpl.
  now rewrite (Math_round_low q MAX_THREADS Hmax Hround).
Qed.

Lemma main_zero_workers_witness :
  let argv := {| argv_files := Some [FilePath (js "a.txt"); FilePath (js "notes.md")];
                 argv_threads := Some (Finite (2 # 5));
                 argv_positional := [] |} in
  selectMode 4 argv = Some (MultiFileAsN 0)
  /\ splitArrayToNChunks [FilePath (js "a.txt"); FilePath (js "notes.md")] 0 = []
  /\ processFilesInParallelArgs (U := asciiOnly) (fun _ => Some (js "x y z"))
       [FilePath (js "a.txt"); FilePath (js "notes.md")] 0 = Some ([], [])
  /\ (forall paths : list jsstring,
        processFilesInParallel (U := asciiOnly) (fun _ => Some (js "x y z"))
          paths 0 = Some ([], []))
  /\ main (U := asciiOnly) 4 (fun _ => Some (js "x y z")) [] argv = Done [].
Proof.
  apply (main_zero_workers (U := asciiOnly) 4 (fun _ => Some (js "x y z")) []
           [FilePath (js "a.txt"); FilePath (js "notes.md")] [] (2 # 5)).
  - lia.
  - discriminate.
  - intros H. vm_compute in H. discriminate.
  - vm_compute. discriminate.
Defined.

(** C8, at the standard input [a b], an empty line, [c d], and at three
    files with these contents. The empty unit leaves its separator: the text
    that goes to the trigram counter has two spaces in a row, [split] gives
    an empty piece, and the table has keys of two words. *)
Theorem joined_text_with_empty_unit {U : Unicode} :
  let stdin := [js "a b"; js ""; js "c d"] in
  let readFile := fun path =>
    if str_eqb path (js "1.txt") then Some (js "a b")
    else if str_eqb path (js "2.txt") then Some (js "")
    else Some (js "c d") in
  processStdIn stdin = js "a b  c d"
  /\ textOfFiles readFile [js "1.txt"; js "2.txt"; js "3.txt"] = inr (js "a b  c d")
  /\ hasSpaceRun (js "a b  c d") = true
  /\ String_split SPACE (js "a b  c d") = [js "a"; js "b"; js ""; js "c"; js "d"]
  /\ generateSequenceMap (js "a b  c d")
     = [(js "a b ", 1); (js "b  c", 1); (js " c d", 1)].
Proof. vm_compute. repeat split. Qed.

(** * More of the code *)

(** ** The table of [generateSequenceMap] *)

Lemma Map_get_set (m : JSMap) (key key' : jsstring) (value : Z) :
  Map_get (Map_set m key value) key'
  = if str_eqb key key' then Some value else Map_get m key'.
Proof.
  induction m as [|[k v] m IH]; simpl.
  - destruct (str_eqb key key'); reflexivity.
  - destruct (str_eqb k key) eqn:E; simpl.
    + apply str_eqb_spec in E. subst k.
      destruct (str_eqb key key'); reflexivity.
    + rewrite IH. destruct (str_eqb key key') eqn:E'; [|reflexivity].
      apply str_eqb_spec in E'. subst key'. now rewrite E.
Qed.

Lemma Map_keys_set (m : JSMap) (key : jsstring) (value : Z) :
  Map_keys (Map_set m key value)
  = if Map_has m key then Map_keys m else Map_keys m ++ [key].
Proof.
  unfold Map_has, Map_keys. induction m as [|[k v] m IH]; simpl; [reflexivity|].
  destruct (str_eqb k key) eqn:E; simpl; [reflexivity|].
  rewrite IH. now destruct (Map_get m key).
Qed.

Lemma Map_get_None_keys (m : JSMap) (key : jsstring) :
  Map_get m key = None <-> ~ In key (Map_keys m).
Proof.
  unfold Map_keys. induction m as [|[k v] m IH]; simpl.
  - tauto.
  - destruct (str_eqb k key) eqn:E.
    + apply str_eqb_spec in E. split; [discriminate | tauto].
    + rewrite IH. split; [|tauto]. intros H [Heq | Hin]; [|tauto].
      subst k. now rewrite str_eqb_refl in E.
Qed.

Lemma skipn_S_tl {A} (n : nat) (l : list A) : skipn (S n) l = tl (skipn n l).
Proof.
  revert l. induction n as [|n IH]; intros [|x l]; try reflexivity.
  change (skipn (S (S n)) (x :: l)) with (skipn (S n) l).
  change (skipn (S n) (x :: l)) with (skipn n l). apply IH.
Qed.

(** The loop goes through the windows from the left, counting each up. *)
Lemma generateSequenceLoop_windows (textArray : list jsstring) (steps : nat) :
  forall (leftIndex : Z) (sequenceMap : JSMap),
    0 <= leftIndex ->
    leftIndex + Z.of_nat steps = len textArray ->
    generateSequenceLoop textArray steps leftIndex sequenceMap
    = fold_left countUp (windows (skipn (Z.to_nat leftIndex) textArray)) sequenceMap.
Proof.
  induction steps as [|steps IH]; intros leftIndex sequenceMap Hpos Hlen.
  - rewrite skipn_all2 by (unfold len in Hlen; lia). reflexivity.
  - cbn [generateSequenceLoop]. rewrite slice_clamped by lia.
    rewrite IH by lia.
    replace (Z.to_nat (leftIndex + 1)) with (S (Z.to_nat leftIndex)) by lia.
    rewrite skipn_S_tl.
    assert (Hrest : length (skipn (Z.to_nat leftIndex) textArray) = S steps).
    { rewrite length_skipn. unfold len in Hlen. lia. }
    destruct (skipn (Z.to_nat leftIndex) textArray) as [|a [|b [|c r]]];
      try discriminate; reflexivity.
Qed.

Lemma generateSequenceMap_windows (text : jsstring) :
  generateSequenceMap text
  = fold_left countUp (windows (String_split SPACE text)) [].
Proof.
  unfold generateSequenceMap. rewrite generateSequenceLoop_windows.
  - reflexivity.
  - lia.
  - unfold len. lia.
Qed.

Lemma str_eqb_sym (a b : jsstring) : str_eqb a b = str_eqb b a.
Proof.
  destruct (str_eqb a b) eqn:E, (str_eqb b a) eqn:E'; try reflexivity.
  - apply str_eqb_spec in E. subst b. now rewrite str_eqb_refl in E'.
  - apply str_eqb_spec in E'. subst b. now rewrite str_eqb_refl in E.
Qed.

Lemma occurrences_cons (key w : jsstring) (ws : list jsstring) :
  occurrences key (w :: ws)
  = (if str_eqb key w then 1 else 0) + occurrences key ws.
Proof.
  unfold occurrences. simpl. destruct (str_eqb key w); [|lia].
  rewrite len_cons. lia.
Qed.

Lemma occurrences_nonneg (key : jsstring) (ws : list jsstring) :
  0 <= occurrences key ws.
Proof. apply len_nonneg. Qed.

Lemma Map_get_countUp (m : JSMap) (w key : jsstring) :
  Map_get (countUp m w) key
  = if str_eqb key w
    then Some (match Map_get m key with Some v => v + 1 | None => 1 end)
    else Map_get m key.
Proof.
  unfold countUp. rewrite (str_eqb_sym key w).
  destruct (str_eqb w key) eqn:E.
  - apply str_eqb_spec in E. subst key.
    destruct (Map_get m w); now rewrite Map_get_set, str_eqb_refl.
  - destruct (Map_get m w); now rewrite Map_get_set, E.
Qed.

Lemma fold_countUp_get (ws : list jsstring) :
  forall (m : JSMap) (key : jsstring),
    Map_get (fold_left countUp ws m) key
    = match Map_get m key with
      | Some v => Some (v + occurrences key ws)
      | None => if occurrences key ws =? 0 then None
                else Some (occurrences key ws)
      end.
Proof.
  induction ws as [|w ws IH]; intros m key.
  - change (occurrences key []) with 0. simpl.
    destruct (Map_get m key); [f_equal; lia | reflexivity].
  - simpl fold_left. rewrite IH, Map_get_countUp, occurrences_cons.
    pose proof (occurrences_nonneg key ws) as Hn.
    destruct (str_eqb key w); destruct (Map_get m key) as [v|].
    + f_equal. lia.
    + destruct (1 + occurrences key ws =? 0) eqn:E;
        [apply Z.eqb_eq in E; lia | f_equal; lia].
    + reflexivity.
    + reflexivity.
Qed.

(** X1. The count that the table of [generateSequenceMap] has for a key is
    the number of windows of three consecutive pieces of the text that read
    as the key; a key that no window reads as is not in the table. *)
Theorem generateSequenceMap_lookup (text key : jsstring) :
  Map_get (generateSequenceMap text) key
  = if occurrences key (windows (String_split SPACE text)) =? 0 then None
    else Some (occurrences key (windows (String_split SPACE text))).
Proof.
  rewrite generateSequenceMap_windows. now rewrite fold_countUp_get.
Qed.

Lemma Map_has_keys (m : JSMap) (key : jsstring) :
  existsb (str_eqb key) (Map_keys m) = Map_has m key.
Proof.
  unfold Map_has, Map_keys. induction m as [|[k v] m IH]; simpl; [reflexivity|].
  rewrite (str_eqb_sym key k). destruct (str_eqb k key); [reflexivity | exact IH].
Qed.

Lemma Map_keys_countUp (m : JSMap) (w : jsstring) :
  Map_keys (countUp m w)
  = if Map_has m w then Map_keys m else Map_keys m ++ [w].
Proof.
  unfold countUp. destruct (Map_get m w) eqn:E; rewrite Map_keys_set; reflexivity.
Qed.

Lemma fold_countUp_keys (ws : list jsstring) :
  forall m : JSMap,
    Map_keys (fold_left countUp ws m)
    = Map_keys m ++ firstOccurrences (Map_keys m) ws.
Proof.
  induction ws as [|w ws IH]; intros m; simpl.
  - now rewrite app_nil_r.
  - rewrite IH, Map_keys_countUp, Map_has_keys.
    destruct (Map_has m w); [reflexivity|].
    now rewrite <- app_assoc.
Qed.

(** X2. The keys of the table of [generateSequenceMap] are in the order in
    which the windows first come in the text, each once. *)
Theorem generateSequenceMap_keys (text : jsstring) :
  Map_keys (generateSequenceMap text)
  = firstOccurrences [] (windows (String_split SPACE text)).
Proof.
  rewrite generateSequenceMap_windows. now rewrite fold_countUp_keys.
Qed.

Lemma Map_wf_countUp (m : JSMap) (w : jsstring) :
  Map_wf m -> Map_wf (countUp m w).
Proof.
  unfold Map_wf. intros Hwf. rewrite Map_keys_countUp.
  unfold Map_has. destruct (Map_get m w) eqn:E; [exact Hwf|].
  apply Map_get_None_keys in E.
  apply (Permutation_NoDup (l := w :: Map_keys m));
    [apply Permutation_cons_append | now constructor].
Qed.

Lemma Map_set_positive (m : JSMap) (key : jsstring) (value : Z) :
  1 <= value -> Forall (fun e => 1 <= snd e) m ->
  Forall (fun e => 1 <= snd e) (Map_set m key value).
Proof.
  intros Hv. induction 1 as [|[k v] m Hk Hm IH]; simpl.
  - now repeat constructor.
  - destruct (str_eqb k key); constructor; trivial.
Qed.

Lemma countUp_positive (m : JSMap) (w : jsstring) :
  Forall (fun e => 1 <= snd e) m -> Forall (fun e => 1 <= snd e) (countUp m w).
Proof.
  intros Hm. unfold countUp. destruct (Map_get m w) as [v|] eqn:E.
  - apply Map_set_positive; [|exact Hm].
    assert (Hv : 1 <= v); [|lia].
    clear - E Hm. induction Hm as [|[k v0] m Hk Hm IH]; simpl in E; [discriminate|].
    destruct (str_eqb k w); [injection E as <-; exact Hk | now apply IH].
  - apply Map_set_positive; [lia | exact Hm].
Qed.

Lemma fold_countUp_wf (ws : list jsstring) :
  forall m : JSMap,
    Map_wf m -> Forall (fun e => 1 <= snd e) m ->
    Map_wf (fold_left countUp ws m)
    /\ Forall (fun e => 1 <= snd e) (fold_left countUp ws m).
Proof.
  induction ws as [|w ws IH]; intros m Hwf Hpos; [now split|].
  simpl. apply IH; [now apply Map_wf_countUp | now apply countUp_positive].
Qed.

(** X3. The table of [generateSequenceMap] has no key twice, and every
    count in it is at least 1. *)
Theorem generateSequenceMap_wf (text : jsstring) :
  Map_wf (generateSequenceMap text)
  /\ Forall (fun e => 1 <= snd e) (generateSequenceMap text).
Proof.
  rewrite generateSequenceMap_windows. apply fold_countUp_wf; constructor.
Qed.

Lemma windows_nil_iff (textArray : list jsstring) :
  windows textArray = [] <-> len textArray < 3.
Proof.
  destruct textArray as [|a [|b [|c r]]]; simpl; unfold len; simpl;
    split; intros H; try reflexivity; try lia; try discriminate.
Qed.

(** X4. [generateSequenceMap] returns the empty table exactly when
    [split(" ")] gives fewer than three pieces: the empty text, one word, two
    words. *)
Theorem generateSequenceMap_empty_iff (text : jsstring) :
  generateSequenceMap text = [] <-> len (String_split SPACE text) < 3.
Proof.
  rewrite <- windows_nil_iff, generateSequenceMap_windows.
  destruct (windows (String_split SPACE text)) as [|w ws]; [tauto|].
  split; [|discriminate]. intros H. exfalso.
  apply (f_equal Map_keys) in H. rewrite fold_countUp_keys in H.
  simpl in H. discriminate.
Qed.

(** ** analyzeText and logSequences *)

Lemma Map_get_Some_In (m : JSMap) (key : jsstring) (value : Z) :
  Map_get m key = Some value -> In (key, value) m.
Proof.
  induction m as [|[k v] m IH]; simpl; [discriminate|].
  destruct (str_eqb k key) eqn:E.
  - apply str_eqb_spec in E. subst k. intros H. injection H as ->. now left.
  - intros H. right. now apply IH.
Qed.

(** X5. [analyzeText] lists every trigram of the text once, with the number
    of windows that read as it, which is at least 1, and nothing else; the
    counts never go up along the list, and they add up to the number of
    windows. *)
Theorem analyzeText_ranked (text : jsstring) :
  let ranked := analyzeText text in
  let ws := windows (String_split SPACE text) in
  NoDup (map fst ranked)
  /\ (forall key count,
        In (key, count) ranked <-> count = occurrences key ws /\ 1 <= count)
  /\ descending ranked
  /\ totalCount ranked = len ws.
Proof.
  intros ranked ws.
  assert (Hperm : Permutation ranked (generateSequenceMap text)).
  { unfold ranked, analyzeText, getTopSequences. rewrite entries_map_id.
    apply Array_sort_perm. }
  destruct (fold_countUp_wf ws [] ltac:(constructor) ltac:(constructor))
    as [Hwf Hpos].
  unfold ws in Hwf, Hpos. rewrite <- generateSequenceMap_windows in Hwf, Hpos.
  assert (Hget : forall key, Map_get (generateSequenceMap text) key
                 = if occurrences key ws =? 0 then None
                   else Some (occurrences key ws)).
  { intros key. rewrite generateSequenceMap_windows. now rewrite fold_countUp_get. }
  split; [|split; [|split]].
  - eapply Permutation_NoDup; [|exact Hwf].
    apply Permutation_sym. now apply Permutation_map.
  - intros key count. split.
    + intros Hin. apply (Permutation_in _ Hperm) in Hin.
      pose proof (Map_get_In _ _ _ Hwf Hin) as Hg. rewrite Hget in Hg.
      rewrite Forall_forall in Hpos. specialize (Hpos _ Hin). simpl in Hpos.
      destruct (occurrences key ws =? 0); [discriminate|].
      injection Hg as <-. now split.
    + intros [-> Hone]. apply (Permutation_in _ (Permutation_sym Hperm)).
      apply Map_get_Some_In. rewrite Hget.
      destruct (occurrences key ws =? 0) eqn:E; [apply Z.eqb_eq in E; lia|].
      reflexivity.
  - unfold ranked, analyzeText, getTopSequences. rewrite entries_map_id.
    apply Array_sort_descending.
  - assert (Htot : forall l1 l2 : JSMap, Permutation l1 l2 ->
                     totalCount l1 = totalCount l2).
    { induction 1; simpl; lia. }
    rewrite (Htot _ _ Hperm), generateSequenceMap_total_pieces.
    fold ws. clear. unfold ws.
    destruct (String_split SPACE text) as [|a [|b l]]; try reflexivity.
    assert (Hw : forall (l : list jsstring) a b,
              len (windows (a :: b :: l)) = len l).
    { clear. induction l as [|c l IH]; intros a b; [reflexivity|].
      change (windows (a :: b :: c :: l))
        with (Array_join (js " ") [a; b; c] :: windows (b :: c :: l)).
      rewrite !len_cons, IH. reflexivity. }
    rewrite Hw, !len_cons. pose proof (len_nonneg l). lia.
Qed.

Lemma nth_error_combine_seq {A} (n : nat) :
  forall (l : list A) (start i : nat) (x : A),
    (i < n)%nat -> nth_error l i = Some x ->
    nth_error (combine (seq start n) l) i = Some ((start + i)%nat, x).
Proof.
  induction n as [|n IH]; intros l start i x Hi Hx; [lia|].
  destruct l as [|y l]; [destruct i; discriminate|].
  destruct i as [|i]; simpl in *.
  - injection Hx as ->. now rewrite Nat.add_0_r.
  - rewrite (IH l (S start) i x) by (trivial; lia). do 2 f_equal. lia.
Qed.

(** X6. For one result [logSequences] prints the line that no sequence was
    found when the list is empty; otherwise the header with the tag of the
    result and then the first 100 entries at most, in their order, numbered
    from 1. *)
Theorem logSequences_unit (ts : FileResult) :
  exists lines,
    logSequences [ts]
    = match sequences ts with
      | [] => [NoSequencesFound]
      | _ :: _ => TopSequencesHeader (file ts) :: lines
      end
    /\ len lines = Z.min 100 (len (sequences ts))
    /\ forall i sequence frequency,
         (i < 100)%nat ->
         nth_error (sequences ts) i = Some (sequence, frequency) ->
         nth_error lines i = Some (SequenceLine (Z.of_nat i + 1) sequence frequency).
Proof.
  set (line := fun p : nat * (jsstring * Z) =>
                 let '(index, (sequence, frequency)) := p in
                 SequenceLine (Z.of_nat index + 1) sequence frequency).
  exists (map line (combine (seq 0 100) (firstn 100 (sequences ts)))).
  assert (Hslice : slice (sequences ts) 0 100 = firstn 100 (sequences ts)).
  { change 100 with (0 + 100) at 1.
    rewrite slice_clamped by (pose proof (len_nonneg (sequences ts)); lia).
    reflexivity. }
  split; [|split].
  - unfold logSequences. simpl flat_map. rewrite app_nil_r, Hslice.
    destruct (sequences ts) as [|e l]; [reflexivity|].
    rewrite len_cons.
    destruct (len l + 1 =? 0) eqn:E;
      [apply Z.eqb_eq in E; pose proof (len_nonneg l); lia|].
    reflexivity.
  - unfold len. rewrite length_map, length_combine, length_seq, length_firstn. lia.
  - intros i sequence frequency Hi Hnth.
    rewrite nth_error_map.
    rewrite (nth_error_combine_seq 100 _ 0 i (sequence, frequency) Hi).
    + reflexivity.
    + rewrite nth_error_firstn.
      destruct (Nat.ltb_spec i 100); [exact Hnth | lia].
Qed.

(** ** More on the partitioner *)

Lemma chunksOf_nil {A} (slots : nat) :
  chunksOf (@nil A) slots = repeat [] slots.
Proof.
  induction slots as [|slots IH]; [reflexivity|].
  cbn [chunksOf repeat].
  replace (Math_ceil_div (len (@nil A)) (Z.of_nat (S slots))) with 0.
  - simpl. now rewrite IH.
  - change (len (@nil A)) with (0 * Z.of_nat (S slots) + 0).
    rewrite Math_ceil_div_eq by lia. reflexivity.
Qed.

Lemma chunksOf_singletons {A} (slots : nat) :
  forall rest : list A,
    (length rest <= slots)%nat ->
    chunksOf rest slots
    = map (fun x => [x]) rest ++ repeat [] (slots - length rest).
Proof.
  induction slots as [|slots IH]; intros rest Hlen.
  - destruct rest; [reflexivity | simpl in Hlen; lia].
  - destruct rest as [|x r]; [now rewrite chunksOf_nil|].
    simpl in Hlen. cbn [chunksOf].
    replace (Math_ceil_div (len (x :: r)) (Z.of_nat (S slots))) with 1.
    + simpl. now rewrite IH by lia.
    + rewrite len_cons. unfold len.
      destruct (Nat.eq_dec (length r) slots) as [-> | Hne].
      * replace (Z.of_nat slots + 1) with (1 * Z.of_nat (S slots) + 0) by lia.
        rewrite Math_ceil_div_eq by lia. reflexivity.
      * replace (Z.of_nat (length r) + 1)
          with (0 * Z.of_nat (S slots) + (Z.of_nat (length r) + 1)) by lia.
        rewrite Math_ceil_div_eq by lia.
        destruct (Z.of_nat (length r) + 1 =? 0) eqn:E;
          [apply Z.eqb_eq in E; lia | reflexivity].
Qed.

(** X7. With at least as many workers as items, [splitArrayToNChunks] gives
    every item a chunk of its own, in order, and then empty chunks. *)
Theorem splitArrayToNChunks_one_each {A} (array : list A) (T : Z) :
  len array <= T ->
  splitArrayToNChunks array T
  = map (fun x => [x]) array ++ repeat [] (Z.to_nat T - length array).
Proof.
  intros HT. rewrite splitArrayToNChunks_chunksOf.
  apply chunksOf_singletons. unfold len in HT. lia.
Qed.

Lemma splitArrayToNChunks_one_each_witness :
  splitArrayToNChunks [js "a.txt"; js "b.txt"] 4
  = [[js "a.txt"]; [js "b.txt"]; []; []].
Proof.
  apply (splitArrayToNChunks_one_each [js "a.txt"; js "b.txt"] 4).
  vm_compute. discriminate.
Defined.

(** ** The worker and the two ways through the files *)

Section ReadingProperties.
Context {U : Unicode}.
Variable readFile : jsstring -> option jsstring.

Lemma find_none_iff {A} (f : A -> bool) (l : list A) :
  find f l = None <-> forall x, In x l -> f x = false.
Proof.
  split; [apply find_none|].
  induction l as [|x l IH]; intros H; [reflexivity|].
  simpl. rewrite (H x (or_introl eq_refl)). apply IH.
  intros y Hy. apply H. now right.
Qed.

Lemma processAndAnalyzeLoop_spec (files : list jsstring) :
  forall (invalidFiles : list jsstring) (results : list FileResult),
    processAndAnalyzeLoop readFile files invalidFiles results
    = match find (isUnreadable readFile) files with
      | Some file => inl (ReadError file)
      | None => inr (invalidFiles ++ invalidFilesOf files,
                     results ++ fileResults readFile files)
      end.
Proof.
  induction files as [|file files IH]; intros invalidFiles results.
  - simpl. now rewrite !app_nil_r.
  - cbn [processAndAnalyzeLoop find invalidFilesOf filter fileResults flat_map].
    unfold isUnreadable at 1. fold (isTxt file).
    destruct (isTxt file) eqn:Etxt; simpl negb; cbv iota.
    + destruct (readFile file) as [data|] eqn:Eread; simpl andb; cbv iota.
      * rewrite IH. fold (invalidFilesOf files). fold (fileResults readFile files).
        destruct (find (isUnreadable readFile) files); [reflexivity|].
        now rewrite <- app_assoc.
      * reflexivity.
    + simpl andb. cbv iota. rewrite IH.
      fold (invalidFilesOf files). fold (fileResults readFile files).
      destruct (find (isUnreadable readFile) files); [reflexivity|].
      now rewrite <- app_assoc.
Qed.

(** X8. The worker, [processAndAnalyzeFiles]: when a text file of its chunk
    cannot be read it fails with the first such file; otherwise it returns
    the files that do not end in [.txt], in order and without having read
    them, and one result for each text file, in order, the ranking of its
    normalized content. *)
Theorem processAndAnalyzeFiles_spec (files : list jsstring) :
  processAndAnalyzeFiles readFile files
  = match find (isUnreadable readFile) files with
    | Some file => inl (ReadError file)
    | None => inr (invalidFilesOf files, fileResults readFile files)
    end.
Proof.
  unfold processAndAnalyzeFiles. now rewrite processAndAnalyzeLoop_spec.
Qed.

Lemma readFilesLoop_spec (files : list jsstring) :
  forall (text : jsstring) (invalidFiles : list jsstring),
    readFilesLoop readFile files text invalidFiles
    = match find (isUnreadable readFile) files with
      | Some file => inl (ReadError file)
      | None => inr (text ++ spacedUnits (fileTexts readFile files),
                     invalidFiles ++ invalidFilesOf files)
      end.
Proof.
  induction files as [|file files IH]; intros text invalidFiles.
  - simpl. now rewrite !app_nil_r.
  - cbn [readFilesLoop find invalidFilesOf filter fileTexts flat_map].
    unfold isUnreadable at 1. fold (isTxt file).
    destruct (isTxt file) eqn:Etxt; simpl negb; cbv iota.
    + destruct (readFile file) as [data|] eqn:Eread; simpl andb; cbv iota.
      * rewrite IH. fold (invalidFilesOf files). fold (fileTexts readFile files).
        destruct (find (isUnreadable readFile) files); [reflexivity|].
        unfold spacedUnits. simpl. now rewrite <- !app_assoc.
      * reflexivity.
    + simpl andb. cbv iota. rewrite IH.
      fold (invalidFilesOf files). fold (fileTexts readFile files).
      destruct (find (isUnreadable readFile) files); [reflexivity|].
      now rewrite <- app_assoc.
Qed.

Lemma createWorker_spec (fileChunk : list jsstring) :
  (forall file, In file fileChunk -> isUnreadable readFile file = false) ->
  createWorker readFile fileChunk
  = Some (invalidFilesOf fileChunk, fileResults readFile fileChunk).
Proof.
  intros H. apply find_none_iff in H.
  unfold createWorker, processAndAnalyzeFiles.
  now rewrite processAndAnalyzeLoop_spec, H.
Qed.

Lemma Promise_all_createWorker (fileChunks : list (list jsstring)) :
  (forall file, In file (concat fileChunks) -> isUnreadable readFile file = false) ->
  Promise_all (map (createWorker readFile) fileChunks)
  = Some (map (fun chunk => (invalidFilesOf chunk, fileResults readFile chunk))
            fileChunks).
Proof.
  induction fileChunks as [|chunk rest IH]; intros H; [reflexivity|].
  simpl in H |- *. rewrite createWorker_spec, IH; trivial.
  - intros file Hin. apply H, in_or_app. now right.
  - intros file Hin. apply H, in_or_app. now left.
Qed.

Lemma invalidFilesOf_chunks (fileChunks : list (list jsstring)) :
  flat_map fst
    (map (fun chunk => (invalidFilesOf chunk, fileResults readFile chunk)) fileChunks)
  = invalidFilesOf (concat fileChunks).
Proof.
  induction fileChunks as [|chunk rest IH]; [reflexivity|].
  simpl. rewrite IH. unfold invalidFilesOf. now rewrite filter_app.
Qed.

Lemma fileResults_chunks (fileChunks : list (list jsstring)) :
  flat_map snd
    (map (fun chunk => (invalidFilesOf chunk, fileResults readFile chunk)) fileChunks)
  = fileResults readFile (concat fileChunks).
Proof.
  induction fileChunks as [|chunk rest IH]; [reflexivity|].
  simpl. rewrite IH. unfold fileResults. now rewrite flat_map_app.
Qed.

(** X10. When every text file of the list can be read,
    [processFilesInParallel] with one worker or more returns what one worker
    would on the whole list, whatever the number of workers: the files that
    do not end in [.txt] reported once, in the order of the list, and one
    result for each text file, in the order of the list. *)
Theorem processFilesInParallel_spec (files : list jsstring) (threadCount : Z) :
  1 <= threadCount ->
  (forall file, In file files -> isUnreadable readFile file = false) ->
  processFilesInParallel readFile files threadCount
  = Some (invalidInputLine (invalidFilesOf files), fileResults readFile files).
Proof.
  intros HT Hread. unfold processFilesInParallel.
  assert (Hcat : concat (splitArrayToNChunks files threadCount) = files).
  { rewrite splitArrayToNChunks_chunksOf. apply chunksOf_concat. lia. }
  rewrite Promise_all_createWorker by now rewrite Hcat.
  now rewrite invalidFilesOf_chunks, fileResults_chunks, Hcat.
Qed.

End ReadingProperties.

Lemma processFilesInParallel_spec_witness :
  processFilesInParallel (U := asciiOnly) (fun _ => Some (js "x y z x y z"))
    [js "a.txt"; js "notes.md"; js "b.txt"] 2
  = Some (invalidInputLine (invalidFilesOf [js "a.txt"; js "notes.md"; js "b.txt"]),
          fileResults (U := asciiOnly) (fun _ => Some (js "x y z x y z"))
            [js "a.txt"; js "notes.md"; js "b.txt"]).
Proof.
  apply (processFilesInParallel_spec (U := asciiOnly)
           (fun _ => Some (js "x y z x y z"))
           [js "a.txt"; js "notes.md"; js "b.txt"] 2).
  - lia.
  - intros file _. unfold isUnreadable. apply andb_false_r.
Defined.

(** ** The text of several units *)

Lemma spacedUnits_join (unit : jsstring) (units : list jsstring) :
  spacedUnits (unit :: units) = SPACE :: Array_join (js " ") (unit :: units).
Proof.
  revert unit. induction units as [|v units IH]; intros unit.
  - unfold spacedUnits. simpl. now rewrite !app_nil_r.
  - change (spacedUnits (unit :: v :: units))
      with (SPACE :: unit ++ spacedUnits (v :: units)).
    rewrite IH. reflexivity.
Qed.

Lemma trim_spacedUnits (units : list jsstring) :
  trim (spacedUnits units) = trim (Array_join (js " ") units).
Proof.
  destruct units as [|unit units]; [reflexivity|].
  rewrite spacedUnits_join. reflexivity.
Qed.

Lemma fold_left_spacedUnits {A} (f : A -> jsstring) (l : list A) :
  forall text : jsstring,
    fold_left (fun text x => text ++ js " " ++ f x) l text
    = text ++ spacedUnits (map f l).
Proof.
  induction l as [|x l IH]; intros text; simpl.
  - now rewrite app_nil_r.
  - rewrite IH. unfold spacedUnits. simpl. now rewrite <- !app_assoc.
Qed.

Lemma startsWithSpace_app (a b : jsstring) :
  a <> [] -> startsWithSpace (a ++ b) = startsWithSpace a.
Proof. destruct a; [congruence | reflexivity]. Qed.

Lemma endsWithSpace_app (a b : jsstring) :
  b <> [] -> endsWithSpace (a ++ b) = endsWithSpace b.
Proof.
  intros Hb. induction a as [|x a IH]; [reflexivity|].
  simpl app. destruct (a ++ b) eqn:E.
  - destruct a; [simpl in E; congruence | discriminate].
  - exact IH.
Qed.

Lemma hasSpaceRun_app (a b : jsstring) :
  hasSpaceRun a = false -> hasSpaceRun b = false ->
  endsWithSpace a = false ->
  hasSpaceRun (a ++ b) = false.
Proof.
  intros Ha Hb Hend. induction a as [|x a IH]; [exact Hb|].
  simpl in Ha. apply orb_false_iff in Ha. destruct Ha as [Hadj Ha].
  simpl. destruct a as [|y a].
  - simpl in Hend. simpl. now rewrite Hend, Hb.
  - change (endsWithSpace (x :: y :: a)) with (endsWithSpace (y :: a)) in Hend.
    rewrite IH by assumption. simpl in Hadj |- *. now rewrite Hadj.
Qed.

(** Units that are not empty, trimmed and without runs of white space,
    joined with single spaces: the same holds of the whole. *)
Lemma Array_join_spacing (units : list jsstring) :
  units <> [] ->
  Forall (fun unit => unit <> [] /\ isTrimmed unit = true
                      /\ hasSpaceRun unit = false) units ->
  Array_join (js " ") units <> []
  /\ isTrimmed (Array_join (js " ") units) = true
  /\ hasSpaceRun (Array_join (js " ") units) = false.
Proof.
  intros Hne Hall. induction Hall as [|unit units [Hu [Htrim Hrun]] Hall IH];
    [now elim Hne|].
  destruct units as [|v units]; [now repeat split|].
  destruct (IH ltac:(discriminate)) as (Hj & Htj & Hrj). clear IH.
  change (Array_join (js " ") (unit :: v :: units))
    with (unit ++ SPACE :: Array_join (js " ") (v :: units)).
  set (J := Array_join (js " ") (v :: units)) in *.
  unfold isTrimmed in *. bool_to_prop.
  destruct Htrim as [Hs He], Htj as [Hsj Hej].
  split; [|split; [split|]].
  - destruct unit; [congruence | discriminate].
  - now rewrite startsWithSpace_app.
  - rewrite endsWithSpace_app by discriminate.
    destruct J; [congruence | exact Hej].
  - apply hasSpaceRun_app; trivial. simpl. now rewrite Hsj, Hrj.
Qed.

Lemma trim_id (s : jsstring) : isTrimmed s = true -> trim s = s.
Proof.
  unfold isTrimmed, trim. bool_to_prop. intros [Hs He].
  rewrite trimStart_id by exact Hs. now apply trimEnd_id.
Qed.

Lemma String_split_pieces_nonempty (s : jsstring) :
  s <> [] -> isTrimmed s = true -> hasSpaceRun s = false ->
  Forall (fun piece => piece <> []) (String_split SPACE s).
Proof.
  intros Hs Htrim Hrun. rewrite <- (String_split_nonempty s Hs Htrim Hrun).
  unfold tokens. apply Forall_forall. intros piece Hin.
  apply filter_In in Hin. destruct Hin as [_ Hp]. now destruct piece.
Qed.

Section JoinedText.
Context {U : Unicode}.

(** X11. The text that [processStdIn] returns is the normalized lines
    joined with single spaces, trimmed. *)
Theorem processStdIn_join (stdin : list jsstring) :
  processStdIn stdin = trim (Array_join (js " ") (map formatText stdin)).
Proof.
  unfold processStdIn. rewrite fold_left_spacedUnits. simpl app.
  apply trim_spacedUnits.
Qed.

Lemma formatText_units (l : list jsstring) :
  (forall unit, In unit l -> formatText unit <> []) ->
  Forall (fun unit => unit <> [] /\ isTrimmed unit = true
                      /\ hasSpaceRun unit = false) (map formatText l).
Proof.
  intros H. apply Forall_forall. intros unit Hin.
  apply in_map_iff in Hin. destruct Hin as (line & <- & Hline).
  destruct (formatText_spacing line) as (_ & _ & Htrim & Hrun).
  split; [now apply H | now split].
Qed.

(** X12. When no line of the standard input normalizes to the empty
    string, the text of [processStdIn] is the normalized lines joined with
    single spaces as it is: trimmed, without two spaces in a row, and
    [split(" ")] gives no empty piece. *)
Theorem processStdIn_spacing (stdin : list jsstring) :
  stdin <> [] ->
  (forall line, In line stdin -> formatText line <> []) ->
  processStdIn stdin = Array_join (js " ") (map formatText stdin)
  /\ isTrimmed (processStdIn stdin) = true
  /\ hasSpaceRun (processStdIn stdin) = false
  /\ Forall (fun piece => piece <> []) (String_split SPACE (processStdIn stdin)).
Proof.
  intros Hne Hlines.
  destruct (Array_join_spacing (map formatText stdin)) as (Hj & Htrim & Hrun).
  { destruct stdin; [congruence | discriminate]. }
  { now apply formatText_units. }
  assert (Heq : processStdIn stdin = Array_join (js " ") (map formatText stdin)).
  { unfold processStdIn. rewrite fold_left_spacedUnits. simpl app.
    rewrite trim_spacedUnits. now apply trim_id. }
  rewrite Heq. repeat split; trivial.
  now apply String_split_pieces_nonempty.
Qed.

End JoinedText.

Lemma processStdIn_spacing_witness :
  processStdIn (U := asciiOnly) [js "One, two"; js "three."]
  = Array_join (js " ") (map (formatText (U := asciiOnly)) [js "One, two"; js "three."]).
Proof.
  apply (processStdIn_spacing (U := asciiOnly) [js "One, two"; js "three."]).
  - discriminate.
  - intros line [<- | [<- | []]]; vm_compute; discriminate.
Defined.

Section FilesAsOne.
Context {U : Unicode}.
Variable readFile : jsstring -> option jsstring.

(** X9. [processFilesAsOne]: when a text file cannot be read it fails with
    the first such file and reports nothing; otherwise it reports the files
    that do not end in [.txt] (if any) and returns one result, tagged with
    the whole list: the ranking of the normalized contents of the text
    files, in order, joined with single spaces and trimmed. *)
Theorem processFilesAsOne_spec (files : list jsstring) :
  processFilesAsOne readFile files
  = match find (isUnreadable readFile) files with
    | Some file => inl (ReadError file)
    | None =>
        inr (invalidInputLine (invalidFilesOf files),
             [{| file := FileList files;
                 sequences :=
                   analyzeText
                     (trim (Array_join (js " ") (fileTexts readFile files))) |}])
    end.
Proof.
  unfold processFilesAsOne. rewrite readFilesLoop_spec.
  destruct (find (isUnreadable readFile) files); [reflexivity|].
  simpl app. now rewrite trim_spacedUnits.
Qed.

(** X13. One text file that can be read gives the same ranking both ways,
    that of its normalized content: [processFilesAsOne] tags it with the
    list of the one path, [processFilesInParallel] (one worker or more) with
    the path. *)
Theorem one_file_both_ways (file data : jsstring) (threadCount : Z) :
  isTxt file = true -> readFile file = Some data -> 1 <= threadCount ->
  processFilesAsOne readFile [file]
  = inr ([], [{| file := FileList [file];
                 sequences := analyzeText (formatText data) |}])
  /\ processFilesInParallel readFile [file] threadCount
     = Some ([], [{| file := OneFile file;
                     sequences := analyzeText (formatText data) |}]).
Proof.
  intros Htxt Hread HT.
  assert (Hok : forall f, In f [file] -> isUnreadable readFile f = false).
  { intros f [<- | []]. unfold isUnreadable. now rewrite Hread, andb_false_r. }
  split.
  - unfold processFilesAsOne. rewrite readFilesLoop_spec.
    rewrite (proj2 (find_none_iff _ _) Hok).
    unfold fileTexts, invalidFilesOf. simpl. rewrite Htxt, Hread. simpl.
    unfold spacedUnits. simpl. rewrite app_nil_r.
    destruct (formatText_spacing data) as (_ & _ & Htrim & _).
    change (trim (32 :: formatText data)) with (trim (formatText data)).
    now rewrite (trim_id _ Htrim).
  - unfold processFilesInParallel.
    assert (Hcat : concat (splitArrayToNChunks [file] threadCount) = [file]).
    { rewrite splitArrayToNChunks_chunksOf. apply chunksOf_concat. lia. }
    rewrite Promise_all_createWorker by now rewrite Hcat.
    rewrite invalidFilesOf_chunks, fileResults_chunks, Hcat.
    unfold fileResults, invalidFilesOf. simpl. now rewrite Htxt, Hread.
Qed.

(** X14. When every text file of the list can be read and none normalizes
    to the empty string, the text that [processFilesAsOne] ranks is the
    normalized contents joined with single spaces as it is; with a text file
    among them it is trimmed, without two spaces in a row, and [split(" ")]
    gives no empty piece. *)
Theorem textOfFiles_spacing (files : list jsstring) :
  (forall file, In file files -> isUnreadable readFile file = false) ->
  (forall unit, In unit (fileTexts readFile files) -> unit <> []) ->
  fileTexts readFile files <> [] ->
  exists text,
    textOfFiles readFile files = inr text
    /\ text = Array_join (js " ") (fileTexts readFile files)
    /\ isTrimmed text = true
    /\ hasSpaceRun text = false
    /\ Forall (fun piece => piece <> []) (String_split SPACE text).
Proof.
  intros Hok Hunits Hne.
  exists (Array_join (js " ") (fileTexts readFile files)).
  assert (Hall : Forall (fun unit => unit <> [] /\ isTrimmed unit = true
                                     /\ hasSpaceRun unit = false)
                   (fileTexts readFile files)).
  { apply Forall_forall. intros unit Hin. split; [now apply Hunits|].
    unfold fileTexts in Hin. apply in_flat_map in Hin.
    destruct Hin as (file & _ & Hin).
    destruct (isTxt file); [|contradiction].
    destruct (readFile file) as [data|]; [|contradiction].
    destruct Hin as [<- | []].
    destruct (formatText_spacing data) as (_ & _ & Htrim & Hrun). now split. }
  destruct (Array_join_spacing _ Hne Hall) as (Hj & Htrim & Hrun).
  split; [|repeat split; trivial].
  - unfold textOfFiles. rewrite readFilesLoop_spec.
    rewrite (proj2 (find_none_iff _ _) Hok). simpl app.
    rewrite trim_spacedUnits. now rewrite (trim_id _ Htrim).
  - now apply String_split_pieces_nonempty.
Qed.

End FilesAsOne.

Lemma one_file_both_ways_witness :
  processFilesAsOne (U := asciiOnly) (fun _ => Some (js "One, two; three!"))
    [js "a.txt"]
  = inr ([], [{| file := FileList [js "a.txt"];
                 sequences := analyzeText
                                (formatText (U := asciiOnly) (js "One, two; three!")) |}])
  /\ processFilesInParallel (U := asciiOnly) (fun _ => Some (js "One, two; three!"))
       [js "a.txt"] 3
     = Some ([], [{| file := OneFile (js "a.txt");
                     sequences := analyzeText
                                    (formatText (U := asciiOnly) (js "One, two; three!")) |}]).
Proof.
  apply (one_file_both_ways (U := asciiOnly) (fun _ => Some (js "One, two; three!"))
           (js "a.txt") (js "One, two; three!") 3).
  - vm_compute. reflexivity.
  - reflexivity.
  - lia.
Defined.

Lemma textOfFiles_spacing_witness :
  exists text,
    textOfFiles (U := asciiOnly) (fun _ => Some (js "One, two."))
      [js "a.txt"; js "notes.md"; js "b.txt"] = inr text
    /\ text = js "one two one two".
Proof.
  destruct (textOfFiles_spacing (U := asciiOnly) (fun _ => Some (js "One, two."))
              [js "a.txt"; js "notes.md"; js "b.txt"]) as (text & H1 & H2 & _).
  - intros file _. unfold isUnreadable. apply andb_false_r.
  - vm_compute. intros unit [<- | [<- | []]]; discriminate.
  - vm_compute. discriminate.
  - exists text. split; [exact H1 | rewrite H2; vm_compute; reflexivity].
Defined.

(** ** The functions on the array of the command line *)

Lemma chunksOf_map {A B} (f : A -> B) (slots : nat) :
  forall rest : list A,
    chunksOf (map f rest) slots = map (map f) (chunksOf rest slots).
Proof.
  induction slots as [|slots IH]; intros rest; [reflexivity|].
  cbn [chunksOf map]. unfold len. rewrite length_map.
  now rewrite firstn_map, skipn_map, IH.
Qed.

Lemma splitArrayToNChunks_map {A B} (f : A -> B) (array : list A) (n : Z) :
  splitArrayToNChunks (map f array) n = map (map f) (splitArrayToNChunks array n).
Proof. rewrite !splitArrayToNChunks_chunksOf. apply chunksOf_map. Qed.

Lemma Promise_all_missing {A} (promises : list (option A)) :
  In None promises -> Promise_all promises = None.
Proof.
  induction promises as [|[x|] rest IH]; intros Hin.
  - contradiction.
  - simpl. destruct Hin as [Habs | Hin]; [discriminate|]. now rewrite IH.
  - reflexivity.
Qed.

Section ArgsProperties.
Context {U : Unicode}.
Variable readFile : jsstring -> option jsstring.

(** On an array of strings the loops are the loops on paths. *)
Lemma processAndAnalyzeLoopArgs_paths (paths : list jsstring) :
  forall (invalidFiles : list jsstring) (results : list FileResult),
    processAndAnalyzeLoopArgs readFile (map FilePath paths) invalidFiles results
    = processAndAnalyzeLoop readFile paths invalidFiles results.
Proof.
  induction paths as [|path paths IH]; intros invalidFiles results; [reflexivity|].
  simpl. destruct (negb (String_endsWith path (js ".txt"))); [apply IH|].
  destruct (readFile path); [apply IH | reflexivity].
Qed.

Lemma readFilesLoopArgs_paths (paths : list jsstring) :
  forall (text : jsstring) (invalidFiles : list jsstring),
    readFilesLoopArgs readFile (map FilePath paths) text invalidFiles
    = readFilesLoop readFile paths text invalidFiles.
Proof.
  induction paths as [|path paths IH]; intros text invalidFiles; [reflexivity|].
  simpl. destruct (negb (String_endsWith path (js ".txt"))); [apply IH|].
  destruct (readFile path); [apply IH | reflexivity].
Qed.

Lemma pathsOf_paths (paths : list jsstring) : pathsOf (map FilePath paths) = paths.
Proof.
  induction paths as [|path paths IH]; [reflexivity|]. simpl. now rewrite IH.
Qed.

Lemma processFilesAsOneArgs_paths (paths : list jsstring) :
  processFilesAsOneArgs readFile (map FilePath paths)
  = processFilesAsOne readFile paths.
Proof.
  unfold processFilesAsOneArgs, processFilesAsOne.
  now rewrite readFilesLoopArgs_paths, pathsOf_paths.
Qed.

Lemma createWorkerArgs_paths (paths : list jsstring) :
  createWorkerArgs readFile (map FilePath paths) = createWorker readFile paths.
Proof.
  unfold createWorkerArgs, createWorker, processAndAnalyzeFilesArgs,
    processAndAnalyzeFiles.
  now rewrite processAndAnalyzeLoopArgs_paths.
Qed.

Lemma processFilesInParallelArgs_paths (paths : list jsstring) (threadCount : Z) :
  processFilesInParallelArgs readFile (map FilePath paths) threadCount
  = processFilesInParallel readFile paths threadCount.
Proof.
  unfold processFilesInParallelArgs, processFilesInParallel.
  rewrite splitArrayToNChunks_map, map_map.
  now rewrite (map_ext _ _ createWorkerArgs_paths).
Qed.

(** A loop over the files throws a read error or a type error, nothing
    else. *)
Lemma readFilesLoopArgs_failure (files : list FileArg) :
  forall (text : jsstring) (invalidFiles : list jsstring) (e : Failure),
    readFilesLoopArgs readFile files text invalidFiles = inl e ->
    e <> UsageError.
Proof.
  induction files as [|[path|value] files IH]; intros text invalidFiles e H;
    simpl in H; try discriminate.
  - destruct (negb (String_endsWith path (js ".txt"))); [now apply IH in H|].
    destruct (readFile path); [now apply IH in H|].
    injection H as <-. discriminate.
  - injection H as <-. discriminate.
Qed.

(** The loop of the worker stops on the first entry it cannot take. *)
Lemma processAndAnalyzeLoopArgs_bad (files : list FileArg) :
  forall (invalidFiles : list jsstring) (results : list FileResult),
    existsb (isBadArg readFile) files = true ->
    exists e, processAndAnalyzeLoopArgs readFile files invalidFiles results = inl e.
Proof.
  induction files as [|[path|value] files IH]; intros invalidFiles results H;
    simpl in H; [discriminate | | now eexists].
  simpl. unfold isUnreadable, isTxt in H.
  destruct (String_endsWith path (js ".txt")); simpl in H |- *.
  - destruct (readFile path); simpl in H; [now apply IH | now eexists].
  - now apply IH.
Qed.

Lemma createWorkerArgs_bad (fileChunk : list FileArg) :
  existsb (isBadArg readFile) fileChunk = true ->
  createWorkerArgs readFile fileChunk = None.
Proof.
  intros H. unfold createWorkerArgs, processAndAnalyzeFilesArgs.
  destruct (processAndAnalyzeLoopArgs_bad fileChunk [] [] H) as [e ->].
  reflexivity.
Qed.

(** One entry that a worker cannot take, and the promises are never all
    there. *)
Lemma processFilesInParallelArgs_bad (files : list FileArg) (threadCount : Z) :
  1 <= threadCount ->
  existsb (isBadArg readFile) files = true ->
  processFilesInParallelArgs readFile files threadCount = None.
Proof.
  intros HT Hbad. unfold processFilesInParallelArgs.
  assert (Hcat : concat (splitArrayToNChunks files threadCount) = files).
  { rewrite splitArrayToNChunks_chunksOf. apply chunksOf_concat. lia. }
  apply existsb_exists in Hbad. destruct Hbad as (entry & Hin & Hentry).
  rewrite <- Hcat in Hin. apply in_concat in Hin.
  destruct Hin as (chunk & Hchunk & Hin).
  rewrite Promise_all_missing; [reflexivity|].
  apply in_map_iff. exists chunk. split; [|exact Hchunk].
  apply createWorkerArgs_bad, existsb_exists. now exists entry.
Qed.

(** A number after paths that can all be taken: the loop of
    [processFilesAsOne] throws on it. *)
Lemma readFilesLoopArgs_number (paths : list jsstring) (value : Q)
    (rest : list FileArg) :
  forall (text : jsstring) (invalidFiles : list jsstring),
    (forall path, In path paths -> isUnreadable readFile path = false) ->
    readFilesLoopArgs readFile (map FilePath paths ++ FileNumber value :: rest)
      text invalidFiles
    = inl (TypeError value).
Proof.
  induction paths as [|path paths IH]; intros text invalidFiles Hok; [reflexivity|].
  simpl. pose proof (Hok path (or_introl eq_refl)) as Hpath.
  unfold isUnreadable, isTxt in Hpath.
  destruct (String_endsWith path (js ".txt")); simpl in Hpath |- *.
  - destruct (readFile path); [|discriminate].
    apply IH. intros p Hp. apply Hok. now right.
  - apply IH. intros p Hp. apply Hok. now right.
Qed.

End ArgsProperties.

(** ** More on main *)

Section MainProperties.
Context {U : Unicode}.
Variable MAX_THREADS : Z.
Variable readFile : jsstring -> option jsstring.
Variable stdin : list jsstring.

(** X15. [main] ends on the usage error exactly when arguments are given
    without [--files]; in every other case it does not end on that error. *)
Theorem main_usage_error (argv : Argv) :
  (exists log, main MAX_THREADS readFile stdin argv = Failed UsageError log)
  <-> (argv_positional argv <> [] /\ argv_files argv = None).
Proof.
  rewrite main_selectMode. unfold selectMode.
  destruct (argv_positional argv) as [|p ps] eqn:Epos.
  - simpl. split; [|intros [H _]; congruence].
    intros [log H]. exfalso.
    destruct (hasFiles argv); [destruct (truthyNumber (argv_threads argv))|];
      unfold runMode in H.
    + destruct (processFilesInParallelArgs _ _ _) as [[? ?]|]; discriminate.
    + unfold processFilesAsOneArgs in H.
      destruct (readFilesLoopArgs _ _ _ _) as [e|[? ?]] eqn:E; [|discriminate].
      apply readFilesLoopArgs_failure in E. congruence.
    + discriminate.
  - rewrite len_cons.
    assert (Hnz : negb (len ps + 1 =? 0) = true).
    { apply negb_true_iff, Z.eqb_neq. pose proof (len_nonneg ps). lia. }
    rewrite Hnz. simpl andb.
    destruct (argv_files argv) as [files|] eqn:Efiles.
    + split; [|intros [_ H]; discriminate].
      intros [log H]. exfalso.
      destruct (hasFiles argv); [destruct (truthyNumber (argv_threads argv))|];
        unfold runMode in H.
      * destruct (processFilesInParallelArgs _ _ _) as [[? ?]|]; discriminate.
      * unfold processFilesAsOneArgs in H.
        destruct (readFilesLoopArgs _ _ _ _) as [e|[? ?]] eqn:E; [|discriminate].
        apply readFilesLoopArgs_failure in E. congruence.
      * discriminate.
    + split; [intros _; split; [discriminate | reflexivity]|].
      intros _. now eexists.
Qed.

(** X16. A file list that is not empty, whose entries are all strings and
    none ends in [.txt], and no worker count: [main] reads nothing, reports
    the whole list as invalid input and then that no sequence was found. *)
Theorem main_invalid_only (paths positional : list jsstring) :
  paths <> [] ->
  (forall path, In path paths -> isTxt path = false) ->
  main MAX_THREADS readFile stdin
    {| argv_files := Some (map FilePath paths); argv_threads := None;
       argv_positional := positional |}
  = Done [InvalidInput paths; NoSequencesFound].
Proof.
  intros Hne Hinv.
  assert (Hfind : find (isUnreadable readFile) paths = None).
  { apply find_none_iff. intros file Hin. unfold isUnreadable.
    now rewrite (Hinv file Hin). }
  assert (Hall : invalidFilesOf paths = paths).
  { unfold invalidFilesOf. clear - Hinv. induction paths as [|f l IH]; [reflexivity|].
    simpl. rewrite (Hinv f (or_introl eq_refl)). simpl. f_equal.
    apply IH. intros file Hin. apply Hinv. now right. }
  assert (Htexts : fileTexts readFile paths = []).
  { unfold fileTexts. clear - Hinv. induction paths as [|f l IH]; [reflexivity|].
    simpl. rewrite (Hinv f (or_introl eq_refl)). simpl.
    apply IH. intros file Hin. apply Hinv. now right. }
  unfold main. cbn [argv_files argv_threads argv_positional].
  rewrite andb_false_r.
  destruct paths as [|f fs]; [congruence|].
  cbn [truthyNumber greaterThan Number_isNaN].
  cbn [map].
  change (FilePath f :: map FilePath fs) with (map FilePath (f :: fs)).
  rewrite processFilesAsOneArgs_paths.
  unfold processFilesAsOne. rewrite readFilesLoop_spec, Hfind, Hall, Htexts.
  assert (Hnz : (len (f :: fs) =? 0) = false).
  { rewrite len_cons. apply Z.eqb_neq. pose proof (len_nonneg fs). lia. }
  unfold invalidInputLine. cbn [app]. rewrite Hnz. reflexivity.
Qed.

(** X23. A file list in which a number comes after strings that are all
    taken (not a text file, or a text file that can be read), and no worker
    count: [processFilesAsOne] throws the [TypeError] of [file.endsWith] at
    the number, and [main] ends on it having printed nothing. *)
Theorem main_numeric_path (paths : list jsstring) (value : Q)
    (rest : list FileArg) (positional : list jsstring) :
  (forall path, In path paths -> isUnreadable readFile path = false) ->
  main MAX_THREADS readFile stdin
    {| argv_files := Some (map FilePath paths ++ FileNumber value :: rest);
       argv_threads := None; argv_positional := positional |}
  = Failed (TypeError value) [].
Proof.
  intros Hok. unfold main. cbn [argv_files argv_threads argv_positional].
  rewrite andb_false_r.
  cbn [truthyNumber greaterThan Number_isNaN app].
  destruct (map FilePath paths ++ FileNumber value :: rest) as [|f fs] eqn:E.
  - destruct paths; discriminate.
  - rewrite <- E. unfold processFilesAsOneArgs.
    now rewrite readFilesLoopArgs_number.
Qed.

(** X17. On a host with a processor at least, the worker count of [main]
    is never above the number of processors; it is that number when the
    count asked for is above it, and 1 when no count is given or the count
    is [NaN] or 0. *)
Theorem THREAD_COUNT_bounds (argv : Argv) :
  1 <= MAX_THREADS ->
  THREAD_COUNT MAX_THREADS argv <= MAX_THREADS
  /\ (greaterThan (argv_threads argv) MAX_THREADS = true ->
      THREAD_COUNT MAX_THREADS argv = MAX_THREADS)
  /\ (truthyNumber (argv_threads argv) = false ->
      THREAD_COUNT MAX_THREADS argv = 1).
Proof.
  intros Hmax. unfold THREAD_COUNT, greaterThan, truthyNumber.
  destruct (argv_threads argv) as [[|q]|]; try (repeat split; (lia || discriminate)).
  split; [|split].
  - destruct (negb (Qeq_bool q 0)); lia.
  - intros Hgt. apply negb_true_iff in Hgt.
    assert (Hlt : (inject_Z MAX_THREADS < q)%Q).
    { apply Qnot_le_lt. intros Hle. apply Qle_bool_iff in Hle. congruence. }
    assert (Hq : Qeq_bool q 0 = false).
    { destruct (Qeq_bool q 0) eqn:E; [|reflexivity].
      apply Qeq_bool_iff in E.
      assert (H1 : (inject_Z 1 <= inject_Z MAX_THREADS)%Q) by (rewrite <- Zle_Qle; lia).
      change (inject_Z 1) with 1%Q in H1. lra. }
    rewrite Hq. simpl negb. cbv iota.
    assert (Hround : MAX_THREADS <= Math_round q).
    { unfold Math_round. rewrite <- (Qfloor_Z MAX_THREADS) at 1.
      apply Qfloor_resp_le. lra. }
    lia.
  - intros Hfalse. now rewrite Hfalse.
Qed.

End MainProperties.

Lemma main_invalid_only_witness :
  main (U := asciiOnly) 4 (fun _ => None) []
    {| argv_files := Some (map FilePath [js "index.js"; js "notes.md"]);
       argv_threads := None; argv_positional := [] |}
  = Done [InvalidInput [js "index.js"; js "notes.md"]; NoSequencesFound].
Proof.
  apply (main_invalid_only (U := asciiOnly) 4 (fun _ => None) []
           [js "index.js"; js "notes.md"] []).
  - discriminate.
  - intros file [<- | [<- | []]]; vm_compute; reflexivity.
Defined.

Lemma main_numeric_path_witness :
  main (U := asciiOnly) 4 (fun _ => None) []
    {| argv_files := Some [FilePath (js "notes.md"); FileNumber 123];
       argv_threads := None; argv_positional := [] |}
  = Failed (TypeError 123) [].
Proof.
  apply (main_numeric_path (U := asciiOnly) 4 (fun _ => None) []
           [js "notes.md"] 123 [] []).
  intros path [<- | []]. vm_compute. reflexivity.
Defined.

Lemma THREAD_COUNT_bounds_witness :
  THREAD_COUNT 4
    {| argv_files := Some [FilePath (js "a.txt")];
       argv_threads := Some (Finite 5000); argv_positional := [] |} <= 4.
Proof.
  apply (THREAD_COUNT_bounds 4
           {| argv_files := Some [FilePath (js "a.txt")];
              argv_threads := Some (Finite 5000); argv_positional := [] |}).
  lia.
Defined.

(** ** More on formatText *)

Lemma trimStart_all_spaces (s : jsstring) :
  forallb isWhiteSpace s = true -> trimStart s = [].
Proof.
  induction s as [|c r IH]; [reflexivity|]. simpl. intros H.
  apply andb_true_iff in H. destruct H as [-> Hr]. now apply IH.
Qed.

Section FormatTextShape.
Context {U : Unicode}.

(** X18. Whatever the text, what [formatText] returns is made of spaces
    (U+0020) and of letters, marks, apostrophes and hyphens only, starts and
    ends with no white space, and never has two spaces in a row. *)
Theorem formatText_shape (text : jsstring) :
  Forall (fun c => c = SPACE \/ (isWhiteSpace c = false /\ isTokenChar c = true))
    (formatText text)
  /\ isTrimmed (formatText text) = true
  /\ hasSpaceRun (formatText text) = false.
Proof.
  destruct (formatText_spacing text) as (_ & Hplain & Htrim & Hrun).
  split; [|now split].
  pose proof (formatText_kept text) as Hkept.
  unfold onlyPlainSpaces in Hplain. rewrite forallb_forall in Hplain, Hkept.
  apply Forall_forall. intros c Hin.
  specialize (Hplain c Hin). specialize (Hkept c Hin).
  destruct (c =? SPACE) eqn:E; [left; now apply Z.eqb_eq|].
  right. rewrite orb_false_r in Hplain. apply negb_true_iff in Hplain.
  split; [exact Hplain|].
  unfold isKept in Hkept. rewrite Hplain, E in Hkept.
  unfold isTokenChar. now rewrite !orb_false_r in Hkept.
Qed.

(** X19. A text in which, once in lower case, there is no letter, no mark,
    no apostrophe and no hyphen normalizes to the empty string. *)
Theorem formatText_blank (text : jsstring) :
  forallb (fun c => negb (isTokenChar c)) (toLowerCase text) = true ->
  formatText text = [].
Proof.
  intros H. unfold formatText. cbv zeta.
  set (t4 := replaceAll matchLoneApostrophe _ _).
  assert (Hws : forallb isWhiteSpace t4 = true).
  { unfold t4. apply replaceAll_forallb; [reflexivity|].
    change (js " ") with [SPACE].
    rewrite (replaceAll_class (fun c => negb (isKept c))).
    rewrite (replaceAll_class (fun c => c =? NEWLINE)).
    rewrite map_map. rewrite forallb_forall in H. apply forallb_forall.
    intros c' Hin. apply in_map_iff in Hin. destruct Hin as (c & <- & Hc).
    specialize (H c Hc). apply negb_true_iff in H. unfold isTokenChar in H.
    destruct (c =? NEWLINE) eqn:En; [reflexivity|].
    destruct (isKept c) eqn:Ek; [|reflexivity]. simpl.
    unfold isKept in Ek.
    apply orb_false_iff in H. destruct H as [H Hh].
    apply orb_false_iff in H. destruct H as [H Ha].
    apply orb_false_iff in H. destruct H as [Hl Hm].
    rewrite Hl, Hm, Ha, Hh in Ek. simpl in Ek. rewrite !orb_false_r in Ek.
    destruct (isWhiteSpace c) eqn:Ew; [reflexivity|].
    simpl in Ek. apply Z.eqb_eq in Ek. subst c. discriminate Ew. }
  unfold trim. rewrite trimStart_all_spaces; [reflexivity|].
  apply replaceAll_forallb; [reflexivity | exact Hws].
Qed.

End FormatTextShape.

Lemma formatText_blank_witness :
  formatText (U := asciiOnly) (js " ...  (1, 2; 3!) ?") = [].
Proof.
  apply (formatText_blank (U := asciiOnly) (js " ...  (1, 2; 3!) ?")).
  vm_compute. reflexivity.
Defined.

(** ** split and join *)

Lemma String_split_cons (sep : Z) (s : jsstring) :
  exists piece pieces, String_split sep s = piece :: pieces.
Proof.
  destruct s as [|c r]; simpl; [now eexists; eexists|].
  destruct (c =? sep); [now eexists; eexists|].
  destruct (String_split sep r); now eexists; eexists.
Qed.

(** The pieces of [split(" ")] joined with a space are the text again. *)
Lemma Array_join_String_split (s : jsstring) :
  Array_join (js " ") (String_split SPACE s) = s.
Proof.
  induction s as [|c r IH]; [reflexivity|].
  simpl String_split.
  destruct (String_split_cons SPACE r) as (piece & pieces & E).
  rewrite E in *. destruct (c =? SPACE) eqn:Ec.
  - apply Z.eqb_eq in Ec. subst c.
    change (Array_join (js " ") ([] :: piece :: pieces))
      with (SPACE :: Array_join (js " ") (piece :: pieces)).
    now rewrite IH.
  - destruct pieces as [|q pieces].
    + simpl in IH |- *. now rewrite IH.
    + change (Array_join (js " ") ((c :: piece) :: q :: pieces))
        with (c :: Array_join (js " ") (piece :: q :: pieces)).
      now rewrite IH.
Qed.

(** X20. For a text that [split(" ")] cuts in exactly three pieces, the
    table of [generateSequenceMap] has one entry: the text itself, once. *)
Theorem generateSequenceMap_three_pieces (text : jsstring) :
  len (String_split SPACE text) = 3 ->
  generateSequenceMap text = [(text, 1)].
Proof.
  intros H3. rewrite generateSequenceMap_windows.
  pose proof (Array_join_String_split text) as Hjoin.
  destruct (String_split SPACE text) as [|a [|b [|c [|d l]]]];
    unfold len in H3; simpl in H3; try lia.
  change (windows [a; b; c]) with [Array_join (js " ") [a; b; c]].
  rewrite Hjoin. reflexivity.
Qed.

Lemma generateSequenceMap_three_pieces_witness :
  generateSequenceMap (js "one two three") = [(js "one two three", 1)].
Proof.
  apply (generateSequenceMap_three_pieces (js "one two three")).
  vm_compute. reflexivity.
Defined.

(** X21. Texts of ASCII characters that differ only in the case of their
    letters normalize to the same text. *)
Theorem formatText_ignores_case {U : Unicode} (a b : jsstring) :
  forallb isAscii a = true -> forallb isAscii b = true ->
  map asciiLower a = map asciiLower b ->
  formatText a = formatText b.
Proof.
  intros Ha Hb Heq. unfold formatText, toLowerCase.
  now rewrite (toLowerCaseFrom_ascii a Ha), (toLowerCaseFrom_ascii b Hb), Heq.
Qed.

Lemma formatText_ignores_case_witness :
  formatText (U := asciiOnly) (js "I LOVE Sandwiches")
  = formatText (U := asciiOnly) (js "i love sandwiches").
Proof.
  apply (formatText_ignores_case (U := asciiOnly)
           (js "I LOVE Sandwiches") (js "i love sandwiches"));
    vm_compute; reflexivity.
Defined.

Lemma Math_round_high (q : Q) : (1 # 2 <= q)%Q -> 1 <= Math_round q.
Proof.
  intros Hq. unfold Math_round. rewrite <- (Qfloor_Z 1) at 1.
  apply Qfloor_resp_le. change (inject_Z 1) with 1%Q. lra.
Qed.

(** With files and a worker count of one half at least, on a host with a
    processor at least, [main] goes through [processFilesInParallel] with a
    worker at least. *)
Lemma main_parallel {U : Unicode} (MAX_THREADS : Z)
    (readFile : jsstring -> option jsstring) (stdin : list jsstring)
    (files : list FileArg) (positional : list jsstring) (q : Q) :
  1 <= MAX_THREADS -> files <> [] -> (1 # 2 <= q)%Q ->
  let argv := {| argv_files := Some files;
                 argv_threads := Some (Finite q);
                 argv_positional := positional |} in
  1 <= THREAD_COUNT MAX_THREADS argv
  /\ main MAX_THREADS readFile stdin argv
     = match processFilesInParallelArgs readFile files
               (THREAD_COUNT MAX_THREADS argv) with
       | Some (out, topSequences) =>
           Done (warnings MAX_THREADS argv ++ out ++ logSequences topSequences)
       | None => WorkerExited (warnings MAX_THREADS argv)
       end.
Proof.
  intros Hmax Hne Hq argv.
  assert (Hnz : Qeq_bool q 0 = false).
  { destruct (Qeq_bool q 0) eqn:E; [|reflexivity].
    apply Qeq_bool_iff in E. lra. }
  pose proof (Math_round_high q Hq) as Hround.
  assert (Hcount : 1 <= THREAD_COUNT MAX_THREADS argv).
  { unfold THREAD_COUNT. simpl. rewrite Hnz. simpl. lia. }
  assert (Hhas : hasFiles argv = true).
  { unfold hasFiles. simpl. destruct files; [congruence|].
    rewrite len_cons. pose proof (len_nonneg files). apply Z.ltb_lt. lia. }
  split; [exact Hcount|].
  rewrite main_selectMode. unfold selectMode. rewrite Hhas.
  cbn [argv argv_files argv_threads argv_positional truthyNumber].
  rewrite Hnz, andb_false_r. reflexivity.
Qed.

(** X22. With a file list that is not empty and whose entries are all
    strings, a worker count of one half at least and a processor at least,
    when every text file can be read, [main] prints its warnings, then the
    files that do not end in [.txt] (if any) in one line, then the result of
    each text file in the order of the list: the worker count shows in the
    warning only. *)
Theorem main_parallel_output {U : Unicode} (MAX_THREADS : Z)
    (readFile : jsstring -> option jsstring) (stdin : list jsstring)
    (paths positional : list jsstring) (q : Q) :
  1 <= MAX_THREADS -> paths <> [] -> (1 # 2 <= q)%Q ->
  (forall path, In path paths -> isUnreadable readFile path = false) ->
  let argv := {| argv_files := Some (map FilePath paths);
                 argv_threads := Some (Finite q);
                 argv_positional := positional |} in
  main MAX_THREADS readFile stdin argv
  = Done (warnings MAX_THREADS argv
          ++ invalidInputLine (invalidFilesOf paths)
          ++ logSequences (fileResults readFile paths)).
Proof.
  intros Hmax Hne Hq Hread argv.
  destruct (main_parallel MAX_THREADS readFile stdin (map FilePath paths)
              positional q Hmax) as [Hcount Hmain]; trivial.
  { destruct paths; [congruence | discriminate]. }
  fold argv in Hcount, Hmain. rewrite Hmain.
  rewrite processFilesInParallelArgs_paths.
  unfold processFilesInParallel.
  assert (Hcat : concat (splitArrayToNChunks paths (THREAD_COUNT MAX_THREADS argv))
                 = paths).
  { rewrite splitArrayToNChunks_chunksOf. apply chunksOf_concat. lia. }
  rewrite Promise_all_createWorker by now rewrite Hcat.
  now rewrite invalidFilesOf_chunks, fileResults_chunks, Hcat.
Qed.

Lemma main_parallel_output_witness :
  main (U := asciiOnly) 4 (fun _ => Some (js "x y z")) []
    {| argv_files := Some (map FilePath [js "a.txt"; js "notes.md"]);
       argv_threads := Some (Finite 2); argv_positional := [] |}
  = Done [ InvalidInput [js "notes.md"];
           TopSequencesHeader (OneFile (js "a.txt"));
           SequenceLine 1 (js "x y z") 1 ].
Proof.
  apply (main_parallel_output (U := asciiOnly) 4 (fun _ => Some (js "x y z")) []
           [js "a.txt"; js "notes.md"] [] 2).
  - lia.
  - discriminate.
  - vm_compute. discriminate.
  - intros file _. unfold isUnreadable. apply andb_false_r.
Defined.

(** ** A read that fails in a worker *)

(** C9. In Multi-file-as-N mode (files, a worker count of one half at
    least, a processor at least), when a file that ends in [.txt] cannot be
    read, the error does not reach [main]: the worker that has the file
    catches it, prints it and leaves by itself without a message, the
    promise of [createWorker] for it is never settled, and [main] stays at
    its [await]. It does not throw, so its handler with [process.exit(1)]
    does not run, and it prints no result. *)
Theorem main_worker_read_failure {U : Unicode} (MAX_THREADS : Z)
    (readFile : jsstring -> option jsstring) (stdin : list jsstring)
    (files : list FileArg) (positional : list jsstring) (q : Q)
    (file : jsstring) :
  1 <= MAX_THREADS -> (1 # 2 <= q)%Q ->
  In (FilePath file) files -> isTxt file = true -> readFile file = None ->
  let argv := {| argv_files := Some files;
                 argv_threads := Some (Finite q);
                 argv_positional := positional |} in
  main MAX_THREADS readFile stdin argv = WorkerExited (warnings MAX_THREADS argv)
  /\ (forall err log, main MAX_THREADS readFile stdin argv <> Failed err log)
  /\ (forall log, main MAX_THREADS readFile stdin argv <> Done log).
Proof.
  intros Hmax Hq Hin Htxt Hread argv.
  destruct (main_parallel MAX_THREADS readFile stdin files positional q Hmax)
    as [Hcount Hmain]; trivial.
  { intros ->. contradiction. }
  fold argv in Hcount, Hmain.
  assert (Hend : main MAX_THREADS readFile stdin argv
                 = WorkerExited (warnings MAX_THREADS argv)).
  { rewrite Hmain, processFilesInParallelArgs_bad; trivial.
    apply existsb_exists. exists (FilePath file). split; [exact Hin|].
    simpl. unfold isUnreadable. now rewrite Htxt, Hread. }
  rewrite Hend. repeat split; discriminate.
Qed.

Lemma main_worker_read_failure_witness :
  main (U := asciiOnly) 4 readOnlyA []
    {| argv_files := Some [FilePath (js "a.txt"); FilePath (js "missing.txt")];
       argv_threads := Some (Finite 2); argv_positional := [] |}
  = WorkerExited [].
Proof.
  apply (main_worker_read_failure (U := asciiOnly) 4 readOnlyA []
           [FilePath (js "a.txt"); FilePath (js "missing.txt")] [] 2
           (js "missing.txt")).
  - lia.
  - vm_compute. discriminate.
  - right. left. reflexivity.
  - vm_compute. reflexivity.
  - vm_compute. reflexivity.
Defined.
